(** * Membrane elasticity plugin: a shallow embedding of
      [plugin/elasticity/membrane.cc]

    The plugin computes, once per element, a stiffness tensor from the rest
    geometry ([Membrane::Membrane]) and, once per step, an elongation per edge
    and the resulting passive force ([Membrane::Compute]).  The callbacks
    that [Membrane::RegisterPlugin] installs create, step and destroy the
    state of an instance.

    Conventions of the embedding.
    - [mjtNum] is C [double]: IEEE-754 binary64 with round-to-nearest-even,
      one rounding per operation (no product and sum contracted into a fused
      multiply-add; [basis_entry_contracted] shows what a contraction
      changes).  It is Rocq's primitive [float]; all NaNs are one value, so
      [=] on [mjtNum] is identity of bit patterns up to the NaN payload.
    - C [int] is [Z]; the index arithmetic of the source is assumed not to
      overflow.
    - A C array is a [list]; a pointer is an array with an offset.  A read or
      write outside the array, a read of an uninitialised variable and a
      [std::vector::assign] with a negative count have no defined result in
      C++: they are [None] (or [Undefined]) here.
    - Functions of the repository that [membrane.cc] calls but that live in
      other files are either fields of the class [Host] or definitions marked
      as modelled from the specification. *)

From Stdlib Require Import ZArith Floats Lia Bool Ascii.
From Stdlib Require Uint63.
From stdpp Require Import base option list list_numbers strings gmap.

Local Open Scope Z_scope.

(** ** Numbers *)

Abbreviation mjtNum := float.

Module F64.
(** Facts about binary64 are stated on [spec_float], the inductive view of
    a double, and transported to [float] along [Prim2SF]. *)

Abbreviation bra := (binary_round_aux prec emax).
Abbreviation fexp64 := (fexp prec emax).

(** The smallest positive normal double, 2^-1022. *)
Definition min_normal : mjtNum := 0x1p-1022%float.

(** Exponent increment with overflow to infinity: what multiplying a
    normal number by two does. *)
Definition SFscale2 (x : spec_float) : spec_float :=
  match x with
  | S754_finite s m e =>
      if e + 1 <=? emax - prec then S754_finite s m (e + 1) else S754_infinity s
  | _ => x
  end.

Definition SFfinite (x : spec_float) : bool :=
  match x with
  | S754_zero _ | S754_finite _ _ _ => true
  | _ => false
  end.

Definition SFzero (x : spec_float) : bool :=
  match x with
  | S754_zero _ => true
  | _ => false
  end.

(** Sign bit clear (NaN counts as unsigned). *)
Definition SFunsigned (x : spec_float) : bool :=
  match x with
  | S754_zero s | S754_infinity s | S754_finite s _ _ => negb s
  | S754_nan => true
  end.

(** A number above the smallest normal number whose double is finite:
    doubling it changes the exponent only. *)
Definition doubling_safe (x : mjtNum) : bool :=
  (min_normal <? abs x)%float && is_finite (2 * x)%float.
End F64.

(** C's [a == b] and [a > 0] on doubles. *)
Definition feq (a b : mjtNum) : bool := (a =? b)%float.
Definition fpos (a : mjtNum) : bool := (0 <? a)%float.

(** ** Memory *)

(** Read [a[i]]. *)
Definition rd {A} (a : list A) (i : Z) : option A :=
  if i <? 0 then None else a !! Z.to_nat i.

(** Write [a[i] = x]. *)
Definition wr {A} (a : list A) (i : Z) (x : A) : option (list A) :=
  if (0 <=? i) && (i <? Z.of_nat (length a)) then Some (<[Z.to_nat i := x]> a) else None.

(** A pointer into an array: the array and the offset of the pointee. *)
Definition ptr (A : Type) : Type := list A * Z.

Definition ptr_add {A} (p : ptr A) (k : Z) : ptr A := (p.1, p.2 + k).
Definition ptr_rd {A} (p : ptr A) (i : Z) : option A := rd p.1 (p.2 + i).

(** [v.assign(n, x)]. *)
Definition assign {A} (n : Z) (x : A) : option (list A) :=
  if n <? 0 then None else Some (replicate (Z.to_nat n) x).

(** [memcpy(dst.data(), src, sizeof(T) * n)]: the first [n] elements of [dst]
    are replaced by the [n] elements at [src]. *)
Definition memcpy {A} (dst : list A) (src : ptr A) (n : Z) : option (list A) :=
  if (0 <=? n) && (0 <=? src.2) && (src.2 + n <=? Z.of_nat (length src.1))
     && (n <=? Z.of_nat (length dst))
  then Some (take (Z.to_nat n) (drop (Z.to_nat src.2) src.1) ++ drop (Z.to_nat n) dst)
  else None.

(** [for (int i = lo; i < hi; i++) s = body(i, s)], with early exit on an
    undefined step. *)
Fixpoint for_range {S} (n : nat) (i : Z) (body : Z → S → option S) (s : S) : option S :=
  match n with
  | O => Some s
  | S n' => s' ← body i s; for_range n' (i + 1) body s'
  end.

Definition for_loop {S} (lo hi : Z) (body : Z → S → option S) (s : S) : option S :=
  for_range (Z.to_nat (hi - lo)) lo body s.

(** ** Host data

    Modelled from the spec: the structures [mjModel] and [mjData] of the
    engine's headers (not under src/), the "host-provided data channels",
    reduced to the fields that [membrane.cc] reads or writes, under the
    names it uses; [flex_elemedge] and [flex_elemedgeadr] are only read by
    the force assembly of [SpecHost]. *)

Record mjModel := {
  nbody : Z;
  body_plugin : list Z;
  nflex : Z;
  flex_dim : list Z;
  flex_vertadr : list Z;
  flex_vertnum : list Z;
  flex_vertbodyid : list Z;
  flex_xvert0 : list mjtNum;
  flex_elem : list Z;
  flex_elemadr : list Z;
  flex_elemdataadr : list Z;
  flex_elemnum : list Z;
  flex_elemedge : list Z;
  flex_elemedgeadr : list Z;
  flex_edgeadr : list Z;
  flex_edgenum : list Z;
  flexedge_length0 : list mjtNum;
  flex_stiffness : list mjtNum;
  opt_timestep : mjtNum;
  (** plugin configuration: (instance, attribute name) to attribute text *)
  plugin_attr : gmap (Z * string) string
}.

Record mjData := {
  flexedge_length : list mjtNum;
  flexvert_xpos : list mjtNum;
  qfrc_passive : list mjtNum
}.

(** Modelled from the spec: [mj_getPluginConfig] of the engine (not under
    src/), the intake of the "named string-valued parameters"; an attribute
    that the model does not give has the empty text. *)
Definition mj_getPluginConfig (m : mjModel) (instance : Z) (name : string) : string :=
  default "" (plugin_attr m !! (instance, name)).

(** ** Small vectors *)

(** A local [mjtNum[3]]. *)
Record vec3 := Vec3 { vx : mjtNum; vy : mjtNum; vz : mjtNum }.

(** [a[i]] for a local [mjtNum[3]]; only used with [0 <= i < 3]. *)
Definition vidx (a : vec3) (i : Z) : mjtNum :=
  if i =? 0 then vx a else if i =? 1 then vy a else vz a.

(** Three consecutive doubles at a pointer. *)
Definition load3 (p : ptr mjtNum) : option vec3 :=
  a ← ptr_rd p 0; b ← ptr_rd p 1; c ← ptr_rd p 2; Some (Vec3 a b c).

Section engine_math.
Local Open Scope float_scope.

(** Modelled from the spec: [mju_abs] of the engine (not under src/), the
    absolute value in "|area|". *)
Definition mju_abs (x : mjtNum) : mjtNum := abs x.

(** Modelled from the spec: [mju_sub3] of the engine (not under src/), the
    "edge vectors" as differences of vertex positions. *)
Definition mju_sub3 (a b : vec3) : vec3 :=
  Vec3 (vx a - vx b) (vy a - vy b) (vz a - vz b).

(** Modelled from the spec: [mju_cross] of the engine (not under src/), the
    "cross product". *)
Definition mju_cross (a b : vec3) : vec3 :=
  Vec3 (vy a * vz b - vz a * vy b)
       (vz a * vx b - vx a * vz b)
       (vx a * vy b - vy a * vx b).

(** Modelled from the spec: [mju_norm3] of the engine (not under src/), the
    "magnitude" of a 3-vector. *)
Definition mju_norm3 (a : vec3) : mjtNum :=
  sqrt (vx a * vx a + vy a * vy a + vz a * vz a).

(** Modelled from the spec: [mju_normalize3] of the engine (not under
    src/), which makes the cross product a "unit normal": the vector
    scaled by the inverse of its magnitude. *)
Definition mju_normalize3 (a : vec3) : vec3 :=
  let normInv := 1 / mju_norm3 a in
  Vec3 (vx a * normInv) (vy a * normInv) (vz a * normInv).
End engine_math.

(** ** The 2D stencil *)

Definition kNumEdges : Z := 3.
Definition kNumVerts : Z := 3.

(** Modelled from the spec: the table [Stencil2D::edge] of elasticity.h (not
    under src/), the "fixed local numbering table" that gives, for every
    local edge, the two other local indices of its basis pair. *)
Definition Stencil2D_edge : list (Z * Z) := [(1, 2); (2, 0); (0, 1)].

(** ** Rest geometry *)

(** The position of the [k]-th vertex of an element: [x + 3*v[k]]. *)
Definition vertex (x : ptr mjtNum) (v : ptr Z) (k : Z) : option vec3 :=
  vk ← ptr_rd v k; load3 (ptr_add x (3 * vk)).

(** [ComputeVolume]: area of a triangle. *)
Definition ComputeVolume (x : ptr mjtNum) (v : ptr Z) : option mjtNum :=
  x0 ← vertex x v 0;
  x1 ← vertex x v 1;
  x2 ← vertex x v 2;
  let edge1 := mju_sub3 x1 x0 in
  let edge2 := mju_sub3 x2 x0 in
  let normal := mju_cross edge1 edge2 in
  Some (mju_norm3 normal / 2)%float.

(** The double loop that fills [basis[3*i+j]], in row-major order.  Every
    operation of the expression is rounded on its own: both products are
    rounded before they are added.  A compiler that contracts a product and
    a sum into a fused multiply-add evaluates the same expression as
    [basis_entry_contracted] below. *)
Definition basis_entry (basisL basisR : vec3) (area : mjtNum) (i j : Z) : mjtNum :=
  ((vidx basisL i * vidx basisR j + vidx basisR i * vidx basisL j) / (8 * area * area))%float.

(** A fused multiply-add, [x * y + z] with a single rounding: the exact
    product is added to [z] and the sum is rounded once. *)
Definition SFfma (x y z : spec_float) : spec_float :=
  match x, y, z with
  | S754_finite sx mx ex, S754_finite sy my ey, S754_finite _ _ _ =>
      SF64add (S754_finite (xorb sx sy) (mx * my) (ex + ey)) z
  | S754_finite _ _ _, S754_finite _ _ _, S754_zero _ => SF64mul x y
  | S754_finite _ _ _, S754_finite _ _ _, _ => z
  | _, _, _ => SF64add (SF64mul x y) z
  end.

Definition fma (x y z : mjtNum) : mjtNum :=
  SF2Prim (SFfma (Prim2SF x) (Prim2SF y) (Prim2SF z)).

(** The expression of [basis_entry] with its first product and the sum
    contracted: not what the source says, but what it may be compiled to
    (the default of GCC on a target with fused multiply-add). *)
Definition basis_entry_contracted (basisL basisR : vec3) (area : mjtNum) (i j : Z) : mjtNum :=
  (fma (vidx basisL i) (vidx basisR j) (vidx basisR i * vidx basisL j) / (8 * area * area))%float.

Definition basis_fill (basisL basisR : vec3) (area : mjtNum) : list mjtNum :=
  i ← [0; 1; 2]; j ← [0; 1; 2]; [basis_entry basisL basisR area i j].

(** [ComputeBasis]: compute local basis. *)
Definition ComputeBasis (x : ptr mjtNum) (v : ptr Z) (faceL faceR : Z * Z)
    (area : mjtNum) : option (list mjtNum) :=
  l0 ← vertex x v faceL.1;
  l1 ← vertex x v faceL.2;
  let edgesL := mju_sub3 l0 l1 in
  r1 ← vertex x v faceR.2;
  r0 ← vertex x v faceR.1;
  let edgesR := mju_sub3 r1 r0 in
  let normal := mju_normalize3 (mju_cross edgesR edgesL) in
  let basisL := mju_cross normal edgesL in
  let basisR := mju_cross edgesR normal in
  Some (basis_fill basisL basisR area).

(** Material parameters of an element. *)
Definition mu (E nu volume thickness : mjtNum) : mjtNum :=
  (E / (2 * (1 + nu)) * mju_abs volume / 4 * thickness)%float.

Definition la (E nu volume thickness : mjtNum) : mjtNum :=
  (E * nu / ((1 + nu) * (1 - 2 * nu)) * mju_abs volume / 4 * thickness)%float.

(** ** Functions of the repository outside [membrane.cc] *)

Class Host := {
  (** [CheckAttr(name, m, instance)] of elasticity.cc *)
  CheckAttr : string → mjModel → Z → bool;
  (** [strtod(text, nullptr)] of the C library *)
  strtod : string → mjtNum;
  (** [MetricTensor<Stencil2D>(metric, idx, mu, la, basis)] of elasticity.h:
      the storage [metric] points into, after the call *)
  MetricTensor : ptr mjtNum → Z → mjtNum → mjtNum → list (list mjtNum) → option (list mjtNum);
  (** [ComputeForce<Stencil2D>(force, elongation, m, f0, xpos)] of
      elasticity.h: the vector [force] after the call *)
  ComputeForce : list mjtNum → list mjtNum → mjModel → Z → ptr mjtNum → option (list mjtNum);
  (** [AddFlexForce(qfrc, force, m, d, xpos, f0)] of elasticity.cc: the
      accumulator [qfrc] after the call, the only part of [d] it changes *)
  AddFlexForce : list mjtNum → list mjtNum → mjModel → mjData → ptr mjtNum → Z
                 → option (list mjtNum)
}.

(** ** The plugin instance *)

Record Membrane := {
  f0 : Z;                    (** index of corresponding flex *)
  i0 : option Z;             (** index of first body; [None] while unset *)
  nv : Z;                    (** number of vertices *)
  ne : Z;                    (** number of edges *)
  damping : mjtNum;
  thickness : mjtNum;
  prev : list mjtNum;        (** edge lengths of the previous step *)
  elongation : list mjtNum;
  force : list mjtNum
}.

(** ** Construction

    The constructor writes the stiffness tensors into [m->flex_stiffness] and
    may stop in [mju_error].  A computation of the constructor takes the
    stiffness storage and ends in one of three ways. *)

Inductive mju_error_msg :=
| BodyWithoutPlugin (body instance : Z).   (** "Body %d does not have plugin instance %d" *)

Inductive result (A : Type) : Type :=
| Done (a : A) (stiffness : list mjtNum)
| Fatal (e : mju_error_msg) (stiffness : list mjtNum)
| Undefined.
Arguments Done {A} a stiffness.
Arguments Fatal {A} e stiffness.
Arguments Undefined {A}.

Definition build (A : Type) : Type := list mjtNum → result A.

Definition ret {A} (a : A) : build A := λ k, Done a k.

Definition bind {A B} (c : build A) (f : A → build B) : build B :=
  λ k, match c k with
       | Done a k' => f a k'
       | Fatal e k' => Fatal e k'
       | Undefined => Undefined
       end.

Notation "'let*' x := c 'in' f" := (bind c (λ x, f))
  (at level 10, x pattern, c at level 100, f at level 200, only parsing).

Definition lift {A} (o : option A) : build A :=
  λ k, match o with Some a => Done a k | None => Undefined end.

Definition mju_error {A} (e : mju_error_msg) : build A := λ k, Fatal e k.

Fixpoint for_build (n : nat) (i : Z) (body : Z → build unit) : build unit :=
  match n with
  | O => ret tt
  | S n' => let* _ := body i in for_build n' (i + 1) body
  end.

(** count plugin bodies *)
Definition count_bodies (m : mjModel) (instance : Z) : option (Z * option Z) :=
  for_loop 1 (nbody m)
    (λ i '(nv, i0),
       bp ← rd (body_plugin m) i;
       Some (if bp =? instance
             then (nv + 1, if nv =? 0 then Some i else i0)
             else (nv, i0)))
    (0, None).

(** count flexes *)
Definition find_flex (m : mjModel) (i0 : option Z) (f0 nv : Z) : option (Z * Z) :=
  for_loop 0 (nflex m)
    (λ i s,
       n ← rd (flex_vertnum m) i;
       for_loop 0 n
         (λ j '(f0, nv),
            adr ← rd (flex_vertadr m) i;
            b ← rd (flex_vertbodyid m) (adr + j);
            first ← i0;
            if b =? first
            then (nv' ← rd (flex_vertnum m) i; Some (i, nv'))
            else Some (f0, nv))
         s)
    (f0, nv).

(** The body of the [i]-th vertex of a triangle:
    [m->flex_vertbodyid[m->flex_vertadr[f0]+v[i]]]. *)
Definition vertex_bodyid (m : mjModel) (f0 : Z) (v : ptr Z) (i : Z) : option Z :=
  adr ← rd (flex_vertadr m) f0;
  vi ← ptr_rd v i;
  rd (flex_vertbodyid m) (adr + vi).

(** The membership test of one vertex of a triangle. *)
Definition check_vertex (m : mjModel) (instance f0 : Z) (v : ptr Z) (i : Z) : build unit :=
  let* bi := lift (vertex_bodyid m f0 v i) in
  if bi =? 0 then ret tt
  else
    let* bp := lift (rd (body_plugin m) bi) in
    if bp =? instance then ret tt
    else mju_error (BodyWithoutPlugin bi instance).

(** compute edge basis *)
Definition edge_basis (body_pos : ptr mjtNum) (v : ptr Z) (volume : mjtNum) (e : Z)
    : option (list mjtNum) :=
  other ← rd Stencil2D_edge e;
  faceL ← rd Stencil2D_edge other.1;
  faceR ← rd Stencil2D_edge other.2;
  ComputeBasis body_pos v faceL faceR volume.

(** One iteration of the loop over all triangles. *)
Definition build_element `{Host} (m : mjModel) (instance : Z) (nu E thickness : mjtNum)
    (f0 : Z) (body_pos : ptr mjtNum) (elem : ptr Z) (t : Z) : build unit :=
  let* dim := lift (rd (flex_dim m) f0) in
  let v := ptr_add elem ((dim + 1) * t) in
  let* _ := for_build (Z.to_nat kNumVerts) 0 (check_vertex m instance f0 v) in
  let* volume := lift (ComputeVolume body_pos v) in
  let mu := mu E nu volume thickness in
  let la := la E nu volume thickness in
  let* basis := lift (mapM (edge_basis body_pos v volume) (seqZ 0 kNumEdges)) in
  let* adr := lift (rd (flex_elemadr m) f0) in
  λ k, match MetricTensor (k, 21 * adr) t mu la basis with
       | Some k' => Done tt k'
       | None => Undefined
       end.

(** plugin constructor *)
Definition Membrane_ctor `{Host} (m : mjModel) (d : mjData) (instance : Z)
    (nu E thick damp : mjtNum) : build Membrane :=
  let* (nv, i0) := lift (count_bodies m instance) in
  let* (f0, nv) := lift (find_flex m i0 (-1) nv) in
  let* vertadr := lift (rd (flex_vertadr m) f0) in
  let body_pos := (flex_xvert0 m, 3 * vertadr) in
  let* elemdataadr := lift (rd (flex_elemdataadr m) f0) in
  let elem := (flex_elem m, elemdataadr) in
  let* elemnum := lift (rd (flex_elemnum m) f0) in
  let* _ := for_build (Z.to_nat elemnum) 0
              (build_element m instance nu E thick f0 body_pos elem) in
  let* ne := lift (rd (flex_edgenum m) f0) in
  let* elongation := lift (assign ne 0%float) in
  let* force := lift (assign (3 * nv) 0%float) in
  ret {| f0 := f0; i0 := i0; nv := nv; ne := ne; damping := damp; thickness := thick;
         prev := []; elongation := elongation; force := force |}.

(** factory function *)
Definition Create `{Host} (m : mjModel) (d : mjData) (instance : Z) : build (option Membrane) :=
  if CheckAttr "face" m instance && CheckAttr "poisson" m instance &&
     CheckAttr "young" m instance && CheckAttr "thickness" m instance
  then
    let nu := strtod (mj_getPluginConfig m instance "poisson") in
    let E := strtod (mj_getPluginConfig m instance "young") in
    let thick := strtod (mj_getPluginConfig m instance "thickness") in
    let damp := strtod (mj_getPluginConfig m instance "damping") in
    let* self := Membrane_ctor m d instance nu E thick damp in
    ret (Some self)
  else
    (* mju_warning("Invalid parameter specification in shell plugin") *)
    ret None.

(** ** Evaluation *)

(** The elongation of one edge, with generalized Rayleigh damping. *)
Definition edge_elongation (deformed ref prev kD : mjtNum) : mjtNum :=
  (deformed * deformed - ref * ref + (deformed * deformed - prev * prev) * kD)%float.

(** [m->flexedge_length0] is not initialized when the plugin is constructed:
    the first evaluation copies it. *)
Definition init_prev (self : Membrane) (ref : ptr mjtNum) : option (list mjtNum) :=
  match prev self with
  | [] => z ← assign (ne self) 0%float; memcpy z ref (ne self)
  | _ => Some (prev self)
  end.

(** One iteration of the loop over the edges. *)
Definition elongation_step (deformed ref : ptr mjtNum) (prev : list mjtNum) (kD : mjtNum)
    (idx : Z) (elongation : list mjtNum) : option (list mjtNum) :=
  dl ← ptr_rd deformed idx;
  r ← ptr_rd ref idx;
  p ← rd prev idx;
  wr elongation idx (edge_elongation dl r p kD).

(** update stored lengths *)
Definition update_prev (kD : mjtNum) (prev : list mjtNum) (deformed : ptr mjtNum) (ne : Z)
    : option (list mjtNum) :=
  if fpos kD then memcpy prev deformed ne else Some prev.

Definition Compute `{Host} (m : mjModel) (d : mjData) (instance : Z) (self : Membrane)
    : option (Membrane * mjData) :=
  let kD := (damping self / opt_timestep m)%float in
  (* read edge lengths *)
  edgeadr ← rd (flex_edgeadr m) (f0 self);
  let deformed := (flexedge_length d, edgeadr) in
  let ref := (flexedge_length0 m, edgeadr) in
  prev1 ← init_prev self ref;
  elongation ← for_loop 0 (ne self) (elongation_step deformed ref prev1 kD) (elongation self);
  (* compute gradient of elastic energy and insert into passive force *)
  vertadr ← rd (flex_vertadr m) (f0 self);
  let xpos := (flexvert_xpos d, 3 * vertadr) in
  force ← ComputeForce (force self) elongation m (f0 self) xpos;
  qfrc ← AddFlexForce (qfrc_passive d) force m d xpos (f0 self);
  prev2 ← update_prev kD prev1 deformed (ne self);
  Some ({| f0 := f0 self; i0 := i0 self; nv := nv self; ne := ne self;
           damping := damping self; thickness := thickness self;
           prev := prev2; elongation := elongation; force := force |},
        {| flexedge_length := flexedge_length d; flexvert_xpos := flexvert_xpos d;
           qfrc_passive := qfrc |}).

(** The states an instance can be in: the one the constructor returns, and
    those an evaluation step leads to. *)
Inductive reachable `{Host} : Membrane → Prop :=
| reachable_ctor m d instance nu E thick damp k self k' :
    Membrane_ctor m d instance nu E thick damp k = Done self k' →
    reachable self
| reachable_Compute m d instance self self' d' :
    reachable self →
    Compute m d instance self = Some (self', d') →
    reachable self'.

(** The same instance with other contents of the elongation vector. *)
Definition with_elongation (self : Membrane) (e : list mjtNum) : Membrane := {|
  f0 := f0 self; i0 := i0 self; nv := nv self; ne := ne self;
  damping := damping self; thickness := thickness self;
  prev := prev self; elongation := e; force := force self
|}.

(** ** Registration: the callbacks of [RegisterPlugin]

    [d->plugin_data] has one entry per plugin instance: the address of the
    state of the instance, or 0.  An entry is modelled by the state it
    points to, [None] for 0; the array is kept beside [mjData]. *)

Definition plugin_data : Type := list (option Membrane).

(** [plugin.nstate] *)
Definition plugin_nstate (m : mjModel) (instance : Z) : Z := 0.

(** [plugin.init] *)
Definition plugin_init `{Host} (m : mjModel) (d : mjData) (pd : plugin_data) (instance : Z)
    : build (Z * plugin_data) :=
  let* elasticity_or_null := Create m d instance in
  match elasticity_or_null with
  | None => ret (-1, pd)
  | Some self =>
      let* pd' := lift (wr pd instance (Some self)) in
      ret (0, pd')
  end.

(** [plugin.destroy]; [delete] of a null pointer does nothing. *)
Definition plugin_destroy (pd : plugin_data) (instance : Z) : option plugin_data :=
  _ ← rd pd instance;
  wr pd instance None.

(** [plugin.compute]; the state is updated in place. *)
Definition plugin_compute `{Host} (m : mjModel) (d : mjData) (pd : plugin_data)
    (instance type : Z) : option (plugin_data * mjData) :=
  p ← rd pd instance;
  elasticity ← p;
  '(elasticity', d') ← Compute m d instance elasticity;
  pd' ← wr pd instance (Some elasticity');
  Some (pd', d').

(** ** Predicates of the statements about the constructor *)

(** The bodies other than the world that carry the instance, in increasing
    order. *)
Definition plugin_bodies (m : mjModel) (instance : Z) : list Z :=
  filter (λ b, rd (body_plugin m) b = Some instance) (seqZ 1 (nbody m - 1)).

(** Some vertex of flex [i] is attached to body [b]. *)
Definition flex_has_body (m : mjModel) (i b : Z) : Prop :=
  ∃ n adr j, rd (flex_vertnum m) i = Some n ∧ rd (flex_vertadr m) i = Some adr ∧
             0 ≤ j < n ∧ rd (flex_vertbodyid m) (adr + j) = Some b.

(** ** A host modelled from the specification

    The functions below are not in [membrane.cc]; they give the class [Host]
    one instance, on which the definitions above can be run. *)

Module SpecHost.

Definition digit (c : Ascii.ascii) : option Z :=
  let n := Z.of_N (Ascii.N_of_ascii c) in
  if (48 <=? n) && (n <=? 57) then Some (n - 48) else None.

(** The leading decimal digits of [s]: their value appended to [acc], their
    number added to [n], and the rest of the text. *)
Fixpoint digits (s : string) (acc : Z) (n : nat) : Z * nat * string :=
  match s with
  | String c s' =>
      match digit c with
      | Some k => digits s' (10 * acc + k) (S n)
      | None => (acc, n, s)
      end
  | EmptyString => (acc, n, s)
  end.

(** An integer below 2^63 as a double. *)
Definition of_Z (z : Z) : mjtNum := PrimFloat.of_uint63 (Uint63.of_Z z).

(** Modelled from the spec: [strtod] of the C library (not under src/), by
    which the numeric attributes are "parsed as floating point".  Only plain
    decimal texts [[+-]digits[.digits]] are read: the value and the number
    of characters converted.  The value is the correctly rounded one for up
    to 15 significant digits.  Leading white space, exponents, [inf], [nan],
    hexadecimal texts and texts of more than 18 digits are not read as the
    C library reads them; the examples use none of these. *)
Definition strtod_end (s : string) : mjtNum * nat :=
  let '(neg, body, ns) :=
    match s with
    | String "-"%char r => (true, r, 1%nat)
    | String "+"%char r => (false, r, 1%nat)
    | _ => (false, s, 0%nat)
    end in
  let '(ip, ni, rest) := digits body 0 0 in
  let '(all, nf, np) :=
    match rest with
    | String "."%char r => let '(a, nf, _) := digits r ip 0 in (a, nf, 1%nat)
    | _ => (ip, 0%nat, 0%nat)
    end in
  if (ni + nf =? 0)%nat then (0%float, 0%nat)
  else
    let x := (of_Z all / of_Z (10 ^ Z.of_nat nf))%float in
    (if neg then (- x)%float else x, (ns + ni + np + nf)%nat).

Definition is_number (s : string) : bool :=
  (0 <? String.length s)%nat && ((strtod_end s).2 =? String.length s)%nat.

(** Modelled from the spec: [CheckAttr] of elasticity.cc (not under src/).
    "[poisson], [young], [thickness], [damping] (numeric, parsed as floating
    point; missing/unparseable => construction fails) and mesh-selection
    attributes [face]/[edge] (structural, validated for presence only)". *)
Definition CheckAttr (name : string) (m : mjModel) (instance : Z) : bool :=
  match plugin_attr m !! (instance, name) with
  | Some text =>
      if bool_decide (name = "face") || bool_decide (name = "edge") then true
      else is_number text
  | None => false
  end.

Section tensor.
Local Open Scope float_scope.

Definition at9 (B : list mjtNum) (i : Z) : mjtNum := default 0 (rd B i).

Definition trace (B : list mjtNum) : mjtNum := at9 B 0 + at9 B 4 + at9 B 8.

Definition trace_prod (A B : list mjtNum) : mjtNum :=
  foldl (λ acc '(i, j), acc + at9 A (3 * i + j) * at9 B (3 * j + i)) 0
        (i ← [0; 1; 2]%Z; j ← [0; 1; 2]%Z; [(i, j)]).

Definition stiffness_entry (mu la : mjtNum) (basis : list (list mjtNum)) (ed : Z * Z) : mjtNum :=
  let B1 := default [] (rd basis ed.1) in
  let B2 := default [] (rd basis ed.2) in
  mu * trace_prod B1 B2 + la * trace B2 * trace B1.
End tensor.

(** The edge pairs of the triangular representation. *)
Definition edge_pairs : list (Z * Z) := [(0, 0); (0, 1); (0, 2); (1, 1); (1, 2); (2, 2)].

(** Consecutive writes [a[off] = x0; a[off+1] = x1; ...]. *)
Fixpoint store {A} (a : list A) (off : Z) (xs : list A) : option (list A) :=
  match xs with
  | [] => Some a
  | x :: xs' => a' ← wr a off x; store a' (off + 1) xs'
  end.

(** Modelled from the spec: [MetricTensor<Stencil2D>] of elasticity.h (not
    under src/).  "Assemble the element's symmetric stiffness tensor as a
    bilinear combination of all edge-pair basis tensors, weighted by mu and
    lambda, and store its unique entries [...] into the model-wide stiffness
    storage at the element's designated offset"; the stride of an element
    is 21 scalars. *)
Definition MetricTensor (metric : ptr mjtNum) (idx : Z) (mu la : mjtNum)
    (basis : list (list mjtNum)) : option (list mjtNum) :=
  store metric.1 (metric.2 + 21 * idx) (stiffness_entry mu la basis <$> edge_pairs).

(** One summand of the contraction: the degree of freedom it goes to, the
    edge whose elongation it multiplies, and its two coefficients. *)
Record term := Term { t_dof : Z; t_edge : Z; t_grad : mjtNum; t_stiff : mjtNum }.

(** Position of a pair in the triangular representation. *)
Definition tri_index (e1 e2 : Z) : Z :=
  let a := Z.min e1 e2 in
  let b := Z.max e1 e2 in
  a * 3 - a * (a - 1) / 2 + (b - a).

(** The summands of one element: for the edge pair [(e1, e2)], the end
    points of [e2] receive the gradient of its squared length. *)
Definition element_terms (m : mjModel) (f0 : Z) (xpos : ptr mjtNum) (t : Z) : option (list term) :=
  dim ← rd (flex_dim m) f0;
  elemdataadr ← rd (flex_elemdataadr m) f0;
  elemadr ← rd (flex_elemadr m) f0;
  edgeadr ← rd (flex_elemedgeadr m) f0;
  let v := (flex_elem m, elemdataadr + (dim + 1) * t) in
  mjoin <$> mapM
    (λ '(e1, e2, i, x),
       idx ← rd (flex_elemedge m) (edgeadr + kNumEdges * t + e1);
       ends ← rd Stencil2D_edge e2;
       va ← ptr_rd v ends.1;
       vb ← ptr_rd v ends.2;
       xa ← vertex xpos v ends.1;
       xb ← vertex xpos v ends.2;
       K ← rd (flex_stiffness m) (21 * (elemadr + t) + tri_index e1 e2);
       let g := vidx (mju_sub3 xa xb) x in
       Some [Term (3 * (if i =? 0 then va else vb) + x) idx
                  (if i =? 0 then g else (- g)%float) K])
    (e1 ← [0; 1; 2]; e2 ← [0; 1; 2]; i ← [0; 1]; x ← [0; 1; 2]; [(e1, e2, i, x)]).

Definition contraction_terms (m : mjModel) (f0 : Z) (xpos : ptr mjtNum) : option (list term) :=
  n ← rd (flex_elemnum m) f0;
  mjoin <$> mapM (element_terms m f0 xpos) (seqZ 0 n).

Definition accumulate (elongation : list mjtNum) (tm : term) (force : list mjtNum)
    : option (list mjtNum) :=
  e ← rd elongation (t_edge tm);
  f ← rd force (t_dof tm);
  wr force (t_dof tm) (f - e * t_grad tm * t_stiff tm)%float.

Fixpoint accumulate_all (elongation : list mjtNum) (tms : list term) (force : list mjtNum)
    : option (list mjtNum) :=
  match tms with
  | [] => Some force
  | tm :: tms' => f ← accumulate elongation tm force; accumulate_all elongation tms' f
  end.

(** Modelled from the spec: [ComputeForce<Stencil2D>] of elasticity.h (not
    under src/).  "Force buffer is zero-initialized at the start of every
    evaluation pass"; "for every element, contract its stiffness tensor with
    the elongation values of its own edges (a stencil-driven
    gradient-of-elastic-energy computation) to produce per-vertex force
    contributions; accumulate these into a force buffer sized 3 x (vertex
    count)". *)
Definition ComputeForce (force elongation : list mjtNum) (m : mjModel) (f0 : Z)
    (xpos : ptr mjtNum) : option (list mjtNum) :=
  tms ← contraction_terms m f0 xpos;
  accumulate_all elongation tms (replicate (length force) 0%float).

(** Modelled from the spec: [AddFlexForce] of elasticity.cc (not under
    src/).  "add the force buffer into the host's global generalized-force
    accumulator at the correct per-vertex offsets"; the offset of a vertex is
    taken to be three times its index in the model. *)
Definition AddFlexForce (qfrc force : list mjtNum) (m : mjModel) (d : mjData)
    (xpos : ptr mjtNum) (f0 : Z) : option (list mjtNum) :=
  vertadr ← rd (flex_vertadr m) f0;
  for_loop 0 (Z.of_nat (length force))
    (λ k q, f ← rd force k; a ← rd q (3 * vertadr + k); wr q (3 * vertadr + k) (a + f)%float)
    qfrc.


(** All coefficients of the contraction are finite. *)
Definition terms_finite (m : mjModel) (f0 : Z) (xpos : ptr mjtNum) : bool :=
  from_option (forallb (λ tm, is_finite (t_grad tm) && is_finite (t_stiff tm))) false
              (contraction_terms m f0 xpos).

(** Modelled from the spec: [strtod(text, nullptr)], the value that
    [strtod_end] reads, with the limits stated there. *)
Definition strtod (s : string) : mjtNum := (strtod_end s).1.

#[export] Instance host : Host :=
  Build_Host CheckAttr strtod MetricTensor ComputeForce AddFlexForce.

End SpecHost.

(** ** Example scenes *)

Module Examples.
Import SpecHost.

(** A single 3-4-5 triangle whose vertices are the bodies 1, 2, 3, all of
    plugin instance 0; [damping] is not configured. *)
Definition tri : mjModel := {|
  nbody := 4;
  body_plugin := [-1; 0; 0; 0];
  nflex := 1;
  flex_dim := [2];
  flex_vertadr := [0];
  flex_vertnum := [3];
  flex_vertbodyid := [1; 2; 3];
  flex_xvert0 := [0; 0; 0;  4; 0; 0;  0; 3; 0]%float;
  flex_elem := [0; 1; 2];
  flex_elemadr := [0];
  flex_elemdataadr := [0];
  flex_elemnum := [1];
  flex_elemedge := [0; 1; 2];
  flex_elemedgeadr := [0];
  flex_edgeadr := [0];
  flex_edgenum := [3];
  flexedge_length0 := [5; 3; 4]%float;
  flex_stiffness := replicate 21 0%float;
  opt_timestep := 0.5%float;
  plugin_attr :=
    {[ (0, "face") := "0 1 2"; (0, "poisson") := "0.25";
       (0, "young") := "1000"; (0, "thickness") := "0.5" ]}
|}.

(** The rest pose and a pose with stretched edges. *)
Definition rest : mjData := {|
  flexedge_length := [5; 3; 4]%float;
  flexvert_xpos := [0; 0; 0;  4; 0; 0;  0; 3; 0]%float;
  qfrc_passive := replicate 9 0%float
|}.

Definition stretched : mjData := {|
  flexedge_length := [6; 3; 5]%float;
  flexvert_xpos := [0; 0; 0;  5; 0; 0;  0; 3; 0]%float;
  qfrc_passive := replicate 9 0%float
|}.

(** The same scene with another time step. *)
Definition with_timestep (m : mjModel) (ts : mjtNum) : mjModel := {|
  nbody := nbody m; body_plugin := body_plugin m; nflex := nflex m; flex_dim := flex_dim m;
  flex_vertadr := flex_vertadr m; flex_vertnum := flex_vertnum m;
  flex_vertbodyid := flex_vertbodyid m; flex_xvert0 := flex_xvert0 m;
  flex_elem := flex_elem m; flex_elemadr := flex_elemadr m;
  flex_elemdataadr := flex_elemdataadr m; flex_elemnum := flex_elemnum m;
  flex_elemedge := flex_elemedge m; flex_elemedgeadr := flex_elemedgeadr m;
  flex_edgeadr := flex_edgeadr m; flex_edgenum := flex_edgenum m;
  flexedge_length0 := flexedge_length0 m; flex_stiffness := flex_stiffness m;
  opt_timestep := ts; plugin_attr := plugin_attr m
|}.

(** The instance that [Create] returns for [tri], and the same instance
    with another damping coefficient. *)
Definition membrane0 : Membrane := {|
  f0 := 0; i0 := Some 1; nv := 3; ne := 3; damping := 0; thickness := 0.5;
  prev := []; elongation := replicate 3 0%float; force := replicate 9 0%float
|}.

Definition with_damping (self : Membrane) (damp : mjtNum) : Membrane := {|
  f0 := f0 self; i0 := i0 self; nv := nv self; ne := ne self;
  damping := damp; thickness := thickness self;
  prev := prev self; elongation := elongation self; force := force self
|}.

(** The instance after a first evaluation at rest. *)
Definition with_prev (self : Membrane) (p : list mjtNum) : Membrane := {|
  f0 := f0 self; i0 := i0 self; nv := nv self; ne := ne self;
  damping := damping self; thickness := thickness self;
  prev := p; elongation := elongation self; force := force self
|}.

(** A pose in which the square of the first edge length overflows. *)
Definition blown_up : mjData := {|
  flexedge_length := [0x1p600; 3; 4]%float;
  flexvert_xpos := [0; 0; 0;  4; 0; 0;  0; 3; 0]%float;
  qfrc_passive := replicate 9 0%float
|}.

(** The stiffness storage that the construction for [tri] leaves. *)
Definition stiffness0 : list mjtNum :=
  Eval vm_compute in
    match Membrane_ctor tri rest 0 0.25 1000 0.5 0 (flex_stiffness tri) with
    | Done _ k => k
    | _ => []
    end.

(** The edge bases of the triangle of [tri], whose area is 6. *)
Definition tri_basis : list (list mjtNum) :=
  default [] (mapM (edge_basis (flex_xvert0 tri, 0) (flex_elem tri, 0) 6%float)
                   (seqZ 0 kNumEdges)).

(** [membrane0] after an evaluation at rest. *)
Definition membrane1 : Membrane := with_prev membrane0 [5; 3; 4]%float.

(** Two triangles; the last vertex of the second one is body 5, which
    belongs to plugin instance 1. *)
Definition foreign : mjModel := {|
  nbody := 6;
  body_plugin := [-1; 0; 0; 0; 0; 1];
  nflex := 1;
  flex_dim := [2];
  flex_vertadr := [0];
  flex_vertnum := [5];
  flex_vertbodyid := [1; 2; 3; 4; 5];
  flex_xvert0 := [0; 0; 0;  4; 0; 0;  0; 3; 0;  4; 3; 0;  8; 0; 0]%float;
  flex_elem := [0; 1; 2;  1; 3; 4];
  flex_elemadr := [0];
  flex_elemdataadr := [0];
  flex_elemnum := [2];
  flex_elemedge := [0; 1; 2;  3; 4; 5];
  flex_elemedgeadr := [0];
  flex_edgeadr := [0];
  flex_edgenum := [6];
  flexedge_length0 := [5; 3; 4; 5; 3; 4]%float;
  flex_stiffness := replicate 42 0%float;
  opt_timestep := 0.5%float;
  plugin_attr := plugin_attr tri
|}.

(** The storage of [foreign] after the first triangle alone. *)
Definition stiffness_foreign : list mjtNum :=
  Eval vm_compute in
    match build_element foreign 0 0.25 1000 0.5 0 (flex_xvert0 foreign, 0)
            (flex_elem foreign, 0) 0 (flex_stiffness foreign) with
    | Done _ k => k
    | _ => []
    end.

(** The triangle of [tri] with its first vertex pinned to the world body. *)
Definition pinned : mjModel := {|
  nbody := 3;
  body_plugin := [-1; 0; 0];
  nflex := 1;
  flex_dim := [2];
  flex_vertadr := [0];
  flex_vertnum := [3];
  flex_vertbodyid := [0; 1; 2];
  flex_xvert0 := flex_xvert0 tri;
  flex_elem := [0; 1; 2];
  flex_elemadr := [0];
  flex_elemdataadr := [0];
  flex_elemnum := [1];
  flex_elemedge := [0; 1; 2];
  flex_elemedgeadr := [0];
  flex_edgeadr := [0];
  flex_edgenum := [3];
  flexedge_length0 := flexedge_length0 tri;
  flex_stiffness := replicate 21 0%float;
  opt_timestep := 0.5%float;
  plugin_attr := plugin_attr tri
|}.

(** [tri] after construction: the stiffness tensors are in place. *)
Definition tri_built : mjModel := {|
  nbody := nbody tri; body_plugin := body_plugin tri; nflex := nflex tri;
  flex_dim := flex_dim tri; flex_vertadr := flex_vertadr tri;
  flex_vertnum := flex_vertnum tri; flex_vertbodyid := flex_vertbodyid tri;
  flex_xvert0 := flex_xvert0 tri; flex_elem := flex_elem tri;
  flex_elemadr := flex_elemadr tri; flex_elemdataadr := flex_elemdataadr tri;
  flex_elemnum := flex_elemnum tri; flex_elemedge := flex_elemedge tri;
  flex_elemedgeadr := flex_elemedgeadr tri; flex_edgeadr := flex_edgeadr tri;
  flex_edgenum := flex_edgenum tri; flexedge_length0 := flexedge_length0 tri;
  flex_stiffness := stiffness0; opt_timestep := opt_timestep tri;
  plugin_attr := plugin_attr tri
|}.

(** A triangle with one vertex pinned to the world, one on a body of the
    instance and one on body 5, which belongs to plugin instance 1. *)
Definition mixed : mjModel := {|
  nbody := 6;
  body_plugin := [-1; 0; 0; 0; 0; 1];
  nflex := 1;
  flex_dim := [2];
  flex_vertadr := [0];
  flex_vertnum := [3];
  flex_vertbodyid := [0; 1; 5];
  flex_xvert0 := flex_xvert0 tri;
  flex_elem := [0; 1; 2];
  flex_elemadr := [0];
  flex_elemdataadr := [0];
  flex_elemnum := [1];
  flex_elemedge := [0; 1; 2];
  flex_elemedgeadr := [0];
  flex_edgeadr := [0];
  flex_edgenum := [3];
  flexedge_length0 := flexedge_length0 tri;
  flex_stiffness := replicate 21 0%float;
  opt_timestep := 0.5%float;
  plugin_attr := plugin_attr tri
|}.
End Examples.

(** * Facts about binary64 arithmetic

    The Standard Library specifies every primitive operation on [float] by
    the corresponding function on [spec_float] ([mul_spec], [add_spec], ...),
    whose rounding is [binary_round_aux]: shift the mantissa right to the
    target exponent, round to nearest even, shift once more if the rounding
    carried.  The facts the claims need are proved on these functions. *)

Module F64_facts.
Import F64.

(** ** Right shifts of the mantissa *)

(** The binary iterator of the specification is plain iteration. *)
Lemma iter_pos_nat {A} (f : A -> A) (p : positive) (x : A) :
  SpecFloat.iter_pos f p x = Nat.iter (Pos.to_nat p) f x.
Proof.
  revert x; induction p as [p IH|p IH|]; intro x; cbn [SpecFloat.iter_pos].
  - rewrite !IH, Pos2Nat.inj_xI, <- Nat.iter_add, <- Nat.iter_succ_r.
    f_equal; lia.
  - rewrite !IH, Pos2Nat.inj_xO, <- Nat.iter_add.
    f_equal; lia.
  - reflexivity.
Qed.

Lemma digits2_pos_size p : digits2_pos p = Pos.size p.
Proof. induction p; simpl; congruence. Qed.

(** Shifting right by fewer places than the mantissa has digits leaves a
    positive mantissa. *)
Lemma shr_iter_pos (k : nat) : forall (q : positive) r s,
  (Z.of_nat k < Zpos (digits2_pos q)) ->
  exists q' r' s', Nat.iter k shr_1 (Build_shr_record (Zpos q) r s) = Build_shr_record (Zpos q') r' s'
     /\ Zpos (digits2_pos q') = Zpos (digits2_pos q) - Z.of_nat k.
Proof.
  induction k as [|k IH]; intros q r s Hk.
  - exists q, r, s. split; [reflexivity | simpl; lia].
  - rewrite Nat.iter_succ_r.
    destruct q as [q|q|]; simpl digits2_pos in Hk.
    + simpl shr_1. destruct (IH q true (r || s)%bool) as (q' & r' & s' & E & D); [lia|].
      exists q', r', s'. split; [exact E|]. simpl digits2_pos. lia.
    + simpl shr_1. destruct (IH q false (r || s)%bool) as (q' & r' & s' & E & D); [lia|].
      exists q', r', s'. split; [exact E|]. simpl digits2_pos. lia.
    + lia.
Qed.

(** The exponent of the format for a number of a given magnitude. *)
Lemma fexp64_eq x : fexp64 x = Z.max (x - 53) (-1074).
Proof. reflexivity. Qed.

Lemma shr_pos (q : positive) r s e n :
  n < Zpos (digits2_pos q) ->
  exists q' r' s', shr (Build_shr_record (Zpos q) r s) e n
                   = (Build_shr_record (Zpos q') r' s', e + Z.max n 0)
     /\ Zpos (digits2_pos q') = Zpos (digits2_pos q) - Z.max n 0.
Proof.
  intro Hn. destruct n as [|p|p]; cbn [shr].
  - exists q, r, s. split; [f_equal; lia | lia].
  - rewrite iter_pos_nat.
    destruct (shr_iter_pos (Pos.to_nat p) q r s) as (q' & r' & s' & E & D); [lia|].
    exists q', r', s'. rewrite E. split; [f_equal; lia | lia].
  - exists q, r, s. split; [f_equal; lia | lia].
Qed.

Lemma round_nearest_even_pos q l : exists q', round_nearest_even (Zpos q) l = Zpos q'.
Proof.
  destruct l as [|[| |]]; cbn [round_nearest_even].
  - eexists; reflexivity.
  - destruct (Z.even (Zpos q)); [eexists; reflexivity | exists (q + 1)%positive; reflexivity].
  - eexists; reflexivity.
  - exists (q + 1)%positive; reflexivity.
Qed.

Lemma shr_fexp_pos (q : positive) e l :
  -1074 <= e ->
  exists q' r' s' e', shr_fexp prec emax (Zpos q) e l = (Build_shr_record (Zpos q') r' s', e')
     /\ -1074 <= e'.
Proof.
  intro He. unfold shr_fexp.
  assert (Hn : fexp64 (Zdigits2 (Zpos q) + e) - e < Zpos (digits2_pos q)).
  { rewrite fexp64_eq. cbn [Zdigits2]. lia. }
  destruct l as [|[| |]]; cbn [shr_record_of_loc];
    match goal with |- context [shr (Build_shr_record _ ?r ?s) _ _] =>
      destruct (shr_pos q r s e _ Hn) as (q' & r' & s' & E & _) end;
    exists q', r', s'; eexists; (split; [exact E | lia]).
Qed.

(** ** Rounding does not lose a number whose exponent is in range

    In particular a sum or difference of two doubles that is not exactly
    zero does not round to zero. *)
Lemma bra_nonzero s (q : positive) e l :
  -1074 <= e ->
  bra s (Zpos q) e l = S754_infinity s \/ exists m' e', bra s (Zpos q) e l = S754_finite s m' e'.
Proof.
  intro He. unfold binary_round_aux.
  destruct (shr_fexp_pos q e l He) as (q1 & r1 & s1 & e1 & E1 & He1).
  rewrite E1. cbn [shr_m].
  destruct (round_nearest_even_pos q1 (loc_of_shr_record (Build_shr_record (Zpos q1) r1 s1))) as (q2 & E2).
  rewrite E2.
  destruct (shr_fexp_pos q2 e1 loc_Exact He1) as (q3 & r3 & s3 & e3 & E3 & He3).
  rewrite E3. cbn [shr_m].
  destruct (e3 <=? emax - prec); [right; eauto | left; reflexivity].
Qed.

(** ** Rounding commutes with doubling in the normal range *)

Lemma shr_nonpos mrs e n : n <= 0 -> shr mrs e n = (mrs, e).
Proof. destruct n; [reflexivity | lia | reflexivity]. Qed.

Lemma shr_succ_exp mrs e n : shr mrs (e + 1) n = (fst (shr mrs e n), snd (shr mrs e n) + 1).
Proof. destruct n; cbn [shr fst snd]; f_equal; lia. Qed.

Lemma shr_fexp_succ_exp M e l :
  -1074 <= e \/ -1074 <= Zdigits2 M + e - 53 ->
  shr_fexp prec emax M (e + 1) l
  = (fst (shr_fexp prec emax M e l), snd (shr_fexp prec emax M e l) + 1).
Proof.
  intro H. unfold shr_fexp. rewrite !fexp64_eq.
  destruct (Z_le_gt_dec (-1074) (Zdigits2 M + e - 53)) as [Hn|Hs].
  - replace (Z.max (Zdigits2 M + (e + 1) - 53) (-1074) - (e + 1))
      with (Z.max (Zdigits2 M + e - 53) (-1074) - e) by lia.
    apply shr_succ_exp.
  - rewrite !shr_nonpos by lia. reflexivity.
Qed.

Lemma shr_fexp_exp_ge M e l :
  -1074 <= e \/ -1074 <= Zdigits2 M + e - 53 ->
  -1074 <= snd (shr_fexp prec emax M e l).
Proof.
  intro H. unfold shr_fexp. rewrite fexp64_eq.
  set (n := Z.max _ _ - e).
  destruct n as [|p|p] eqn:En; cbn [shr snd]; subst n; lia.
Qed.

(** One more in the exponent of the exact value is one more in the
    exponent of the rounded value, when the exact value is at least the
    smallest normal number or its exponent is one of the format. *)
Lemma bra_succ_exp s M E l :
  -1074 <= E \/ -1074 <= Zdigits2 M + E - 53 ->
  bra s M (E + 1) l = SFscale2 (bra s M E l).
Proof.
  intro H. unfold binary_round_aux.
  rewrite (shr_fexp_succ_exp M E l) by exact H.
  pose proof (shr_fexp_exp_ge M E l H) as He1.
  destruct (shr_fexp prec emax M E l) as [mrs1 e1]. cbn [fst snd] in *.
  rewrite (shr_fexp_succ_exp _ e1 loc_Exact) by (left; exact He1).
  destruct (shr_fexp prec emax _ e1 loc_Exact) as [mrs2 e2]. cbn [fst snd].
  destruct (shr_m mrs2) as [|m|m]; cbn [SFscale2]; try reflexivity.
  destruct (e2 <=? emax - prec) eqn:L; cbn [SFscale2].
  - reflexivity.
  - apply Z.leb_gt in L.
    destruct (e2 + 1 <=? emax - prec) eqn:L'; [apply Z.leb_le in L'; lia | reflexivity].
Qed.

(** Doubling a normal number is exact. *)
Lemma SFmul_two_normal s m e :
  Zpos (digits2_pos m) = 53 -> -1074 <= e ->
  SF64mul (Prim2SF 2) (S754_finite s m e) = SFscale2 (S754_finite s m e).
Proof.
  intros Hd He.
  change (Prim2SF 2) with (S754_finite false 4503599627370496 (-51)).
  unfold SF64mul, SFmul. cbv [xorb Pos.mul].
  unfold binary_round_aux, shr_fexp. rewrite fexp64_eq.
  cbn [Zdigits2 digits2_pos shr_record_of_loc].
  rewrite !Pos2Z.inj_succ, Hd.
  replace (Z.max _ _ - (-51 + e)) with 52 by lia.
  cbn [shr SpecFloat.iter_pos shr_1 orb shr_m loc_of_shr_record round_nearest_even].
  rewrite fexp64_eq. cbn [Zdigits2]. rewrite Hd.
  replace (Z.max _ _ - (-51 + e + 52)) with 0 by lia.
  cbn [shr shr_m SFscale2].
  replace (-51 + e + 52) with (e + 1) by lia. reflexivity.
Qed.

Local Open Scope float_scope.

(** ** The classification predicates of [PrimFloat] on [spec_float] *)

Lemma SFcompare_refl x : x <> S754_nan -> SFcompare x x = Some Eq.
Proof.
  destruct x as [s|s| |s m e]; intro H; try congruence; cbn [SFcompare].
  - reflexivity.
  - now destruct s.
  - rewrite Z.compare_refl, Pos.compare_cont_refl. now destruct s.
Qed.

Lemma is_nan_spec x : is_nan x = match Prim2SF x with S754_nan => true | _ => false end.
Proof.
  unfold is_nan. rewrite FloatAxioms.eqb_spec. unfold SFeqb.
  destruct (Prim2SF x) eqn:E; try reflexivity;
    rewrite SFcompare_refl by discriminate; reflexivity.
Qed.

Lemma is_zero_spec x : is_zero x = SFzero (Prim2SF x).
Proof.
  unfold is_zero. rewrite FloatAxioms.eqb_spec.
  change (Prim2SF PrimFloat.zero) with (S754_zero false).
  destruct (Prim2SF x) as [s|s| |s m e]; try reflexivity; now destruct s.
Qed.

Lemma is_infinity_spec x :
  is_infinity x = match Prim2SF x with S754_infinity _ => true | _ => false end.
Proof.
  unfold is_infinity. rewrite FloatAxioms.eqb_spec, abs_spec.
  change (Prim2SF PrimFloat.infinity) with (S754_infinity false).
  destruct (Prim2SF x) as [s|s| |s m e]; reflexivity.
Qed.

Lemma is_finite_spec x : is_finite x = SFfinite (Prim2SF x).
Proof.
  unfold is_finite. rewrite is_nan_spec, is_infinity_spec.
  destruct (Prim2SF x); reflexivity.
Qed.

(** A double's exponent is at least the least exponent, -1074. *)
Lemma valid_exp_ge s m e : valid_binary (S754_finite s m e) = true -> (-1074 <= e)%Z.
Proof.
  cbn [SpecFloat.valid_binary]. unfold bounded, canonical_mantissa.
  rewrite andb_true_iff, Z.eqb_eq, fexp64_eq. lia.
Qed.

(** ** Zeros

    Zero divided by a nonzero number is zero. *)
Lemma fdiv_zero_l a b :
  is_zero a = true -> is_nan b = false -> is_zero b = false -> is_zero (a / b) = true.
Proof.
  rewrite !is_zero_spec, is_nan_spec, div_spec.
  destruct (Prim2SF a) as [sa|sa| |sa ma ea], (Prim2SF b) as [sb|sb| |sb mb eb];
    cbn; congruence.
Qed.

(** A finite number times zero is zero (of either sign). *)
Lemma fmul_zero_r x z :
  is_finite x = true -> is_zero z = true -> is_zero (x * z) = true.
Proof.
  rewrite is_finite_spec, !is_zero_spec, mul_spec.
  destruct (Prim2SF x) as [sa|sa| |sa ma ea], (Prim2SF z) as [sb|sb| |sb mb eb];
    cbn; congruence.
Qed.

Lemma fmul_zero_l z x :
  is_zero z = true -> is_finite x = true -> is_zero (z * x) = true.
Proof.
  rewrite is_finite_spec, !is_zero_spec, mul_spec.
  destruct (Prim2SF x) as [sa|sa| |sa ma ea], (Prim2SF z) as [sb|sb| |sb mb eb];
    cbn; congruence.
Qed.

(** Adding a zero changes nothing, except that [-0 + +0] is [+0]. *)
Lemma fadd_zero_r x z :
  is_zero z = true -> Prim2SF x <> S754_zero true -> x + z = x.
Proof.
  rewrite is_zero_spec. intros Hz Hx. apply Prim2SF_inj. rewrite add_spec.
  destruct (Prim2SF x) as [sa|sa| |sa ma ea], (Prim2SF z) as [sb|sb| |sb mb eb];
    try discriminate; try reflexivity.
  destruct sa, sb; try reflexivity. congruence.
Qed.

Lemma fsub_zero_r z : is_zero z = true -> 0 - z = 0.
Proof.
  rewrite is_zero_spec. intro Hz. apply Prim2SF_inj. rewrite sub_spec.
  change (Prim2SF 0) with (S754_zero false).
  destruct (Prim2SF z) as [sb|sb| |sb mb eb]; try discriminate. now destruct sb.
Qed.

(** A finite number minus itself is [+0]. *)
Lemma fsub_diag x : is_finite x = true -> x - x = 0.
Proof.
  rewrite is_finite_spec. intro Hx. apply Prim2SF_inj. rewrite sub_spec.
  change (Prim2SF 0) with (S754_zero false).
  destruct (Prim2SF x) as [s|s| |s m e]; try discriminate.
  - now destruct s.
  - unfold SF64sub, SFsub. rewrite Z.sub_diag. reflexivity.
Qed.

(** ** A difference of squares is never [-0] *)

Lemma bra_sign s M e l :
  match bra s M e l with
  | S754_zero s' | S754_infinity s' | S754_finite s' _ _ => s' = s
  | S754_nan => True
  end.
Proof.
  unfold binary_round_aux.
  destruct (shr_fexp prec emax M e l) as [mrs1 e1].
  destruct (shr_fexp prec emax _ e1 loc_Exact) as [mrs2 e2].
  destruct (shr_m mrs2); [reflexivity| |exact I].
  destruct (e2 <=? emax - prec)%Z; reflexivity.
Qed.

Lemma square_unsigned x : SFunsigned (Prim2SF (x * x)) = true.
Proof.
  rewrite mul_spec.
  destruct (Prim2SF x) as [s|s| |s m e].
  - cbn. now destruct s.
  - cbn. now destruct s.
  - reflexivity.
  - unfold SF64mul, SFmul. rewrite xorb_nilpotent.
    pose proof (bra_sign false (Z.pos (m * m)) (e + e) loc_Exact) as H.
    destruct (bra _ _ _ _); cbn; try subst; reflexivity.
Qed.

(** A difference is [-0] only for [-0 - +0]. *)
Lemma SFsub_negzero x y :
  valid_binary x = true -> valid_binary y = true ->
  SF64sub x y = S754_zero true -> x = S754_zero true.
Proof.
  intros Vx Vy. unfold SF64sub, SFsub.
  destruct x as [sx|sx| |sx mx ex], y as [sy|sy| |sy my ey]; try discriminate.
  - destruct sx, sy; try discriminate; reflexivity.
  - destruct sx, sy; discriminate.
  - intros H. exfalso.
    apply valid_exp_ge in Vx, Vy.
    unfold binary_normalize in H.
    destruct (_ - _)%Z as [|p|p]; [discriminate| |];
      unfold binary_round in H;
      destruct (shl_align _ _ _) as [mz ez] eqn:Ea.
    all: assert (Hez : (-1074 <= ez)%Z) by
        (unfold shl_align in Ea; rewrite fexp64_eq in Ea;
         destruct (_ - _)%Z in Ea; inversion Ea; subst; lia).
    all: match type of H with bra ?s _ _ _ = _ =>
           destruct (bra_nonzero s mz ez loc_Exact Hez) as [E|(m' & e' & E)] end;
         rewrite E in H; discriminate.
Qed.

Lemma fsub_squares_not_negzero d r : Prim2SF (d * d - r * r) <> S754_zero true.
Proof.
  rewrite sub_spec. intro H.
  apply SFsub_negzero in H; try apply Prim2SF_valid.
  pose proof (square_unsigned d) as U. rewrite H in U. discriminate.
Qed.

Local Open Scope Z_scope.

(** ** Below the normal range *)

Lemma shr_1_m mrs : 0 <= shr_m mrs -> shr_m (shr_1 mrs) = Z.div2 (shr_m mrs).
Proof.
  destruct mrs as [m r s]. cbn [shr_m]. intro H.
  destruct m as [|[p|p|]|p]; try reflexivity. exfalso; lia.
Qed.

Lemma shr_iter_bound (k : nat) mrs :
  0 <= shr_m mrs ->
  0 <= shr_m (Nat.iter k shr_1 mrs) /\ shr_m (Nat.iter k shr_1 mrs) * 2 ^ Z.of_nat k <= shr_m mrs.
Proof.
  intro H0. induction k as [|k [IH0 IH]].
  - cbn [Nat.iter]. change (2 ^ Z.of_nat 0) with 1.
    split; [exact H0 | rewrite Z.mul_1_r; apply Z.le_refl].
  - rewrite Nat.iter_succ, shr_1_m by exact IH0.
    rewrite Nat2Z.inj_succ, Z.pow_succ_r by lia.
    rewrite Z.div2_div.
    revert H0 IH0 IH.
    generalize (shr_m (Nat.iter k shr_1 mrs)) (shr_m mrs). intros a b H0 IH0 IH.
    pose proof (Z.mul_div_le a 2 ltac:(lia)) as D.
    pose proof (Z.div_pos a 2 IH0 ltac:(lia)) as P.
    split; [exact P|].
    pose proof (Z.pow_pos_nonneg 2 (Z.of_nat k) ltac:(lia) ltac:(lia)) as Q.
    nia.
Qed.

(** The number of binary digits against powers of two. *)
Lemma digits_lt_pow q : Zpos q < 2 ^ Zpos (digits2_pos q).
Proof.
  rewrite digits2_pos_size. pose proof (Pos.size_gt q) as H.
  rewrite <- Pos2Z.inj_pow. lia.
Qed.

Lemma digits_le_pow q : 2 ^ Zpos (digits2_pos q) <= 2 * Zpos q.
Proof.
  rewrite digits2_pos_size. pose proof (Pos.size_le q) as H.
  rewrite <- Pos2Z.inj_pow. lia.
Qed.

Lemma digits_le_of_bound q n : 0 <= n -> Zpos q < 2 ^ n -> Zpos (digits2_pos q) <= n.
Proof.
  intros Hn Hq. pose proof (digits_le_pow q) as H.
  destruct (Z_le_gt_dec (Zpos (digits2_pos q)) n) as [L|G]; [exact L|exfalso].
  assert (2 ^ (n + 1) <= 2 ^ Zpos (digits2_pos q)) by (apply Z.pow_le_mono_r; lia).
  rewrite Z.pow_add_r, Z.pow_1_r in H0 by lia. lia.
Qed.

Lemma digits_ge_of_bound q n : 0 <= n -> 2 ^ n <= Zpos q -> n < Zpos (digits2_pos q).
Proof.
  intros Hn Hq. pose proof (digits_lt_pow q) as H.
  apply (Z.pow_lt_mono_r_iff 2); lia.
Qed.

Lemma round_nearest_even_bound M l :
  M <= round_nearest_even M l <= M + 1.
Proof.
  destruct l as [|[| |]]; cbn [round_nearest_even]; try lia.
  destruct (Z.even M); lia.
Qed.

(** Below the normal range the rounded result has the least exponent and a
    mantissa of at most 2^52. *)
Lemma bra_below_normal s q E :
  Zpos (digits2_pos q) + E - 53 < -1074 ->
  valid_binary (bra s (Zpos q) E loc_Exact) = true ->
  match bra s (Zpos q) E loc_Exact with
  | S754_zero _ => True
  | S754_finite _ m e => e = -1074 /\ Zpos m <= 2 ^ 52
  | _ => False
  end.
Proof.
  intros Hd. unfold binary_round_aux.
  assert (S1 : shr_fexp prec emax (Zpos q) E loc_Exact
               = shr (Build_shr_record (Zpos q) false false) E (-1074 - E)).
  { unfold shr_fexp. rewrite fexp64_eq. cbn [Zdigits2 shr_record_of_loc]. f_equal. lia. }
  assert (S2 : forall M e, Zdigits2 M + e - 53 <= -1074 -> -1074 <= e ->
               shr_fexp prec emax M e loc_Exact = (Build_shr_record M false false, e)).
  { intros M e H1 H2. unfold shr_fexp. rewrite fexp64_eq. cbn [shr_record_of_loc].
    apply shr_nonpos. lia. }
  rewrite S1. clear S1.
  pose proof (digits_lt_pow q) as Hq.
  destruct (Z_le_gt_dec (-1074) E) as [HE|HE].
  - (* no shift *)
    rewrite shr_nonpos by lia. cbn [shr_m loc_of_shr_record round_nearest_even].
    rewrite S2 by (cbn [Zdigits2]; lia). cbn [shr_m].
    destruct (E <=? emax - prec) eqn:L;
      [|apply Z.leb_gt in L; change (emax - prec) with 971 in L; lia].
    cbn [SpecFloat.valid_binary]. unfold bounded, canonical_mantissa.
    rewrite andb_true_iff, Z.eqb_eq, fexp64_eq. intros [C _].
    assert (E = -1074) by lia. subst E. split; [reflexivity|].
    assert (2 ^ Zpos (digits2_pos q) <= 2 ^ 52) by (apply Z.pow_le_mono_r; lia). lia.
  - (* shift to the least exponent *)
    intros _.
    destruct (-1074 - E) as [|p|p] eqn:En; try lia.
    cbn [shr]. rewrite iter_pos_nat.
    set (mrs0 := Build_shr_record (Zpos q) false false).
    destruct (shr_iter_bound (Pos.to_nat p) mrs0 ltac:(cbn; lia)) as [B0 B1].
    set (mrs1 := Nat.iter (Pos.to_nat p) shr_1 mrs0) in *.
    cbn [shr_m mrs0] in B1. rewrite positive_nat_Z in B1.
    pose proof (round_nearest_even_bound (shr_m mrs1) (loc_of_shr_record mrs1)) as HR.
    set (M2 := round_nearest_even _ _) in *.
    revert B0 B1 HR. generalize (shr_m mrs1). intros M1 B0 B1 HR.
    assert (HM1 : M1 < 2 ^ 52).
    { assert (2 ^ Zpos (digits2_pos q) <= 2 ^ (52 + Zpos p)) by (apply Z.pow_le_mono_r; lia).
      rewrite Z.pow_add_r in H by lia.
      pose proof (Z.pow_pos_nonneg 2 (Zpos p) ltac:(lia) ltac:(lia)). nia. }
    replace (E + Zpos p) with (-1074) by lia.
    assert (HD2 : Zdigits2 M2 <= 53).
    { destruct M2 as [|m2|m2]; cbn [Zdigits2]; try lia.
      apply digits_le_of_bound; [lia|].
      change (2 ^ 53) with (2 * 2 ^ 52). lia. }
    rewrite S2 by lia. cbn [shr_m].
    destruct M2 as [|m2|m2]; [exact I| |lia].
    change (-1074 <=? emax - prec) with true. cbn iota. split; [reflexivity | lia].
Qed.

(** ** Rounding never invents a NaN *)






(** ** Doubling a product

    A double of magnitude at least 2^-1022 has a full mantissa. *)
Lemma normal_digits s m e :
  valid_binary (S754_finite s m e) = true ->
  -1074 < e \/ (e = -1074 /\ 2 ^ 52 <= Zpos m) ->
  Zpos (digits2_pos m) = 53.
Proof.
  cbn [SpecFloat.valid_binary]. unfold bounded, canonical_mantissa.
  rewrite andb_true_iff, Z.eqb_eq, fexp64_eq. intros [C _] [H|[H1 H2]]; [lia|].
  pose proof (digits_ge_of_bound m 52 ltac:(lia) H2). lia.
Qed.

(** Comparison with the smallest normal number, on the representation. *)
Lemma above_min_normal x :
  (min_normal <? abs x)%float = true ->
  match Prim2SF x with
  | S754_infinity _ => True
  | S754_finite _ m e => -1074 < e \/ (e = -1074 /\ 2 ^ 52 < Zpos m)
  | _ => False
  end.
Proof.
  rewrite FloatAxioms.ltb_spec, abs_spec.
  change (Prim2SF min_normal) with (S754_finite false 4503599627370496 (-1074)).
  destruct (Prim2SF x) as [s|s| |s m e]; cbn [SFabs]; unfold SFltb; cbn [SFcompare].
  - discriminate.
  - trivial.
  - discriminate.
  - destruct (Z.compare_spec (-1074) e) as [E|L|G].
    + fold (Pos.compare 4503599627370496 m).
      destruct (Pos.compare_spec 4503599627370496 m) as [E'|L'|G']; try discriminate.
      intros _. right. split; [lia|]. change (2 ^ 52) with 4503599627370496. lia.
    + intros _. left. exact L.
    + discriminate.
Qed.

Lemma at_least_min_normal x :
  (min_normal <=? abs x)%float = true ->
  match Prim2SF x with
  | S754_infinity _ => True
  | S754_finite _ m e => -1074 < e \/ (e = -1074 /\ 2 ^ 52 <= Zpos m)
  | _ => False
  end.
Proof.
  rewrite FloatAxioms.leb_spec, abs_spec.
  change (Prim2SF min_normal) with (S754_finite false 4503599627370496 (-1074)).
  destruct (Prim2SF x) as [s|s| |s m e]; cbn [SFabs]; unfold SFleb; cbn [SFcompare].
  - discriminate.
  - trivial.
  - discriminate.
  - destruct (Z.compare_spec (-1074) e) as [E|L|G].
    + fold (Pos.compare 4503599627370496 m).
      destruct (Pos.compare_spec 4503599627370496 m) as [E'|L'|G']; try discriminate.
      * intros _. right. split; [lia|]. change (2 ^ 52) with 4503599627370496. lia.
      * intros _. right. split; [lia|]. change (2 ^ 52) with 4503599627370496. lia.
    + intros _. left. exact L.
    + discriminate.
Qed.

(** Multiplication by a doubled factor: exact when nothing leaves the normal
    range. *)
Theorem fmul_double (K t : float) :
  (min_normal <=? abs t)%float = true ->
  is_finite (2 * t) = true ->
  (min_normal <? abs (K * t))%float = true ->
  is_finite (2 * (K * t)) = true ->
  (K * (2 * t) = 2 * (K * t))%float.
Proof.
  intros H1 H2 H3 H4. apply Prim2SF_inj.
  apply at_least_min_normal in H1. apply above_min_normal in H3.
  rewrite is_finite_spec in H2, H4.
  pose proof (Prim2SF_valid t) as Vt. pose proof (Prim2SF_valid (K * t)) as Vp.
  rewrite !mul_spec in *.
  change (Prim2SF 2) with (S754_finite false 4503599627370496 (-51)) in *.
  destruct (Prim2SF t) as [st|st| |st mt et]; try contradiction.
  { exfalso. revert H2. cbv. discriminate. }
  pose proof (normal_digits _ _ _ Vt H1) as Dt.
  pose proof (valid_exp_ge _ _ _ Vt) as Et.
  change (S754_finite false 4503599627370496 (-51)) with (Prim2SF 2) in *.
  rewrite (SFmul_two_normal st mt et Dt Et) in *.
  cbn [SFscale2] in *.
  destruct (et + 1 <=? emax - prec) eqn:Lt; [|discriminate].
  destruct (Prim2SF K) as [sk|sk| |sk mk ek]; try contradiction.
  { exfalso. revert H4. change (Prim2SF 2) with (S754_finite false 4503599627370496 (-51)).
    cbv. discriminate. }
  unfold SF64mul at 1 3. cbn [SFmul].
  unfold SF64mul at 2 in H4. unfold SF64mul in H3, Vp. cbn [SFmul] in H3, H4, Vp.
  set (P := bra (xorb sk st) (Zpos (mk * mt)) (ek + et) loc_Exact) in *.
  assert (Hn : -1074 <= Zdigits2 (Zpos (mk * mt)) + (ek + et) - 53).
  { destruct (Z_le_gt_dec (-1074) (Zdigits2 (Zpos (mk * mt)) + (ek + et) - 53)) as [L|G];
      [exact L|exfalso].
    pose proof (bra_below_normal (xorb sk st) (mk * mt) (ek + et) ltac:(cbn [Zdigits2] in G; lia) Vp) as B.
    fold P in B. destruct P as [sp|sp| |sp mp ep]; try contradiction. lia. }
  replace (ek + (et + 1)) with (ek + et + 1) by lia.
  rewrite (bra_succ_exp _ _ _ _ (or_intror Hn)). fold P.
  destruct P as [sp|sp| |sp mp ep] eqn:EP; try contradiction.
  { exfalso. revert H4. change (Prim2SF 2) with (S754_finite false 4503599627370496 (-51)).
    cbv. discriminate. }
  assert (H3' : -1074 < ep \/ ep = -1074 /\ 2 ^ 52 <= Zpos mp) by lia.
  pose proof (normal_digits _ _ _ Vp H3') as Dp.
  pose proof (valid_exp_ge _ _ _ Vp) as Ep.
  symmetry. apply (SFmul_two_normal sp mp ep Dp Ep).
Qed.

(** ** Doubling a sum

    The operands of a sum are aligned on the smaller exponent; the sum of
    the aligned mantissas is then brought to the exponent of the format. *)
Lemma shl_align_succ m e e' :
  shl_align m (e + 1) (e' + 1) = (fst (shl_align m e e'), snd (shl_align m e e') + 1).
Proof.
  unfold shl_align. replace (e' + 1 - (e + 1)) with (e' - e) by lia.
  destruct (e' - e); reflexivity.
Qed.

Lemma digits_shift (k : positive) p :
  Zpos (digits2_pos (Pos.iter xO p k)) = Zpos (digits2_pos p) + Zpos k.
Proof.
  induction k as [|k IH] using Pos.peano_ind.
  - cbn [Pos.iter digits2_pos]. lia.
  - rewrite Pos.iter_succ. cbn [digits2_pos]. lia.
Qed.

Lemma shl_align_digits p e e' :
  Zpos (digits2_pos (fst (shl_align p e e'))) + snd (shl_align p e e')
  = Zpos (digits2_pos p) + e
  /\ snd (shl_align p e e') = Z.min e e'.
Proof.
  unfold shl_align. destruct (e' - e) as [|k|k] eqn:D; cbn [fst snd]; try lia.
  rewrite digits_shift. lia.
Qed.

Lemma binary_round_succ_exp s p e :
  -1074 <= e -> -1074 <= Zpos (digits2_pos p) + e - 53 ->
  binary_round prec emax s p (e + 1) = SFscale2 (binary_round prec emax s p e).
Proof.
  intros He Hn. unfold binary_round. rewrite !fexp64_eq.
  replace (Z.max (Zpos (digits2_pos p) + (e + 1) - 53) (-1074))
    with (Z.max (Zpos (digits2_pos p) + e - 53) (-1074) + 1) by lia.
  rewrite shl_align_succ.
  destruct (shl_align_digits p e (Z.max (Zpos (digits2_pos p) + e - 53) (-1074))) as [_ Hs].
  destruct (shl_align p e _) as [mz ez]. cbn [fst snd] in *.
  apply bra_succ_exp. left. lia.
Qed.

Lemma binary_round_below_normal s p e :
  -1074 <= e -> Zpos (digits2_pos p) + e - 53 < -1074 ->
  valid_binary (binary_round prec emax s p e) = true ->
  match binary_round prec emax s p e with
  | S754_zero _ => True
  | S754_finite _ m e' => e' = -1074 /\ Zpos m <= 2 ^ 52
  | _ => False
  end.
Proof.
  intros He Hn. unfold binary_round. rewrite fexp64_eq.
  destruct (shl_align_digits p e (Z.max (Zpos (digits2_pos p) + e - 53) (-1074))) as [Hd Hs].
  destruct (shl_align p e _) as [mz ez]. cbn [fst snd] in *.
  apply bra_below_normal. lia.
Qed.

(** The sum of two doubled numbers: exact when nothing leaves the normal
    range. *)
Theorem fadd_double (a b : float) :
  (min_normal <=? abs a)%float = true -> is_finite (2 * a) = true ->
  (min_normal <=? abs b)%float = true -> is_finite (2 * b) = true ->
  (min_normal <? abs (a + b))%float = true -> is_finite (2 * (a + b)) = true ->
  (2 * a + 2 * b = 2 * (a + b))%float.
Proof.
  intros Ha Fa Hb Fb Hs Fs. apply Prim2SF_inj.
  apply at_least_min_normal in Ha, Hb. apply above_min_normal in Hs.
  rewrite is_finite_spec in Fa, Fb, Fs.
  pose proof (Prim2SF_valid a) as Va. pose proof (Prim2SF_valid b) as Vb.
  pose proof (Prim2SF_valid (a + b)) as Vs.
  rewrite ?mul_spec, ?add_spec in *. rewrite ?mul_spec in *.
  destruct (Prim2SF a) as [sa|sa| |sa ma ea]; try contradiction.
  { exfalso. revert Fa. change (Prim2SF 2) with (S754_finite false 4503599627370496 (-51)).
    cbv. discriminate. }
  destruct (Prim2SF b) as [sb|sb| |sb mb eb]; try contradiction.
  { exfalso. revert Fb. change (Prim2SF 2) with (S754_finite false 4503599627370496 (-51)).
    cbv. discriminate. }
  pose proof (normal_digits _ _ _ Va Ha) as Da. pose proof (valid_exp_ge _ _ _ Va) as Ea.
  pose proof (normal_digits _ _ _ Vb Hb) as Db. pose proof (valid_exp_ge _ _ _ Vb) as Eb.
  rewrite (SFmul_two_normal sa ma ea Da Ea), (SFmul_two_normal sb mb eb Db Eb) in *.
  cbn [SFscale2] in *.
  destruct (ea + 1 <=? emax - prec); [|discriminate].
  destruct (eb + 1 <=? emax - prec); [|discriminate].
  unfold SF64add in *. cbn [SFadd] in *. cbv zeta in *.
  rewrite Z.add_min_distr_r, !shl_align_succ. cbn [fst].
  set (S := cond_Zopp sa _ + cond_Zopp sb _) in *.
  set (ez := Z.min ea eb) in *.
  assert (Hez : -1074 <= ez) by (subst ez; lia).
  unfold binary_normalize in *.
  assert (Hr : forall s p,
     match binary_round prec emax s p ez with
     | S754_infinity _ => True
     | S754_finite _ m e => -1074 < e \/ (e = -1074 /\ 2 ^ 52 < Zpos m)
     | _ => False
     end ->
     valid_binary (binary_round prec emax s p ez) = true ->
     SFfinite (SF64mul (Prim2SF 2) (binary_round prec emax s p ez)) = true ->
     binary_round prec emax s p (ez + 1) = SF64mul (Prim2SF 2) (binary_round prec emax s p ez)).
  { intros s p H V F.
    assert (Hn : -1074 <= Zpos (digits2_pos p) + ez - 53).
    { destruct (Z_le_gt_dec (-1074) (Zpos (digits2_pos p) + ez - 53)) as [L|G];
        [exact L|exfalso].
      pose proof (binary_round_below_normal s p ez Hez ltac:(lia) V) as B.
      destruct (binary_round prec emax s p ez); try contradiction. lia. }
    rewrite (binary_round_succ_exp s p ez Hez Hn).
    destruct (binary_round prec emax s p ez) as [sr|sr| |sr mr er]; try contradiction.
    { exfalso. revert F. change (Prim2SF 2) with (S754_finite false 4503599627370496 (-51)).
      cbv. discriminate. }
    symmetry. apply SFmul_two_normal; [|now apply valid_exp_ge in V].
    apply (normal_digits sr mr er V). lia. }
  destruct S as [|p|p]; [contradiction| |]; now apply Hr.
Qed.

(** Multiplication and addition of doubles are commutative. *)
Lemma SFmul_comm (x y : spec_float) : SF64mul x y = SF64mul y x.
Proof.
  unfold SF64mul, SFmul.
  destruct x as [sx|sx| |sx mx ex], y as [sy|sy| |sy my ey]; try reflexivity;
    rewrite ?(xorb_comm sx sy); try reflexivity.
  now rewrite Pos.mul_comm, Z.add_comm.
Qed.


Lemma fmul_comm (x y : mjtNum) : (x * y = y * x)%float.
Proof. apply Prim2SF_inj. rewrite !mul_spec. apply SFmul_comm. Qed.


(** ** Doubling, for numbers that [doubling_safe] accepts *)

Lemma fltb_leb x y : (x <? y)%float = true -> (x <=? y)%float = true.
Proof.
  rewrite FloatAxioms.ltb_spec, FloatAxioms.leb_spec. unfold SFltb, SFleb.
  destruct (SFcompare _ _) as [[| |]|]; congruence.
Qed.

Lemma fmul_double_l t K :
  doubling_safe t = true -> doubling_safe (t * K) = true ->
  (2 * t * K = 2 * (t * K))%float.
Proof.
  intros [Ht Ft]%andb_true_iff [Hp Fp]%andb_true_iff.
  rewrite (fmul_comm (2 * t) K), (fmul_comm t K) in *.
  apply fmul_double; auto using fltb_leb.
Qed.

Lemma fadd_double_safe a b :
  doubling_safe a = true -> doubling_safe b = true -> doubling_safe (a + b) = true ->
  (2 * a + 2 * b = 2 * (a + b))%float.
Proof.
  intros [Ha Fa]%andb_true_iff [Hb Fb]%andb_true_iff [Hs Fs]%andb_true_iff.
  apply fadd_double; auto using fltb_leb.
Qed.

End F64_facts.

(** * Arrays and loops *)

Section memory_facts.
Context {A : Type}.
Implicit Types (a dst : list A) (i j n : Z) (x : A).

Lemma rd_Some a i x : rd a i = Some x → 0 ≤ i < Z.of_nat (length a).
Proof.
  unfold rd. destruct (Z.ltb_spec i 0); [done|].
  intros Hl%lookup_lt_Some. lia.
Qed.

Lemma rd_is_Some a i : 0 ≤ i < Z.of_nat (length a) → is_Some (rd a i).
Proof.
  intros [H0 H1]. unfold rd. destruct (Z.ltb_spec i 0); [lia|].
  apply lookup_lt_is_Some. lia.
Qed.

Lemma wr_Some a i x a' :
  wr a i x = Some a' → 0 ≤ i < Z.of_nat (length a) ∧ a' = <[Z.to_nat i := x]> a.
Proof.
  unfold wr. destruct (Z.leb_spec 0 i), (Z.ltb_spec i (Z.of_nat (length a)));
    simpl; intros [= <-]; auto with lia.
Qed.

Lemma wr_length a i x a' : wr a i x = Some a' → length a' = length a.
Proof. intros [_ ->]%wr_Some. apply length_insert. Qed.

Lemma rd_wr_eq a i x a' : wr a i x = Some a' → rd a' i = Some x.
Proof.
  intros [[H0 H1] ->]%wr_Some. unfold rd. destruct (Z.ltb_spec i 0); [lia|].
  apply list_lookup_insert_eq. lia.
Qed.

Lemma rd_wr_ne a i x a' j : wr a i x = Some a' → j ≠ i → rd a' j = rd a j.
Proof.
  intros [[H0 H1] ->]%wr_Some Hne. unfold rd. destruct (Z.ltb_spec j 0); [done|].
  apply list_lookup_insert_ne. lia.
Qed.

Lemma assign_Some n x a : assign n x = Some a → 0 ≤ n ∧ a = replicate (Z.to_nat n) x.
Proof. unfold assign. destruct (Z.ltb_spec n 0); [done|]. intros [= <-]. auto. Qed.

Lemma memcpy_Some dst (src : ptr A) n r :
  memcpy dst src n = Some r →
  0 ≤ n ∧ 0 ≤ src.2 ∧ src.2 + n ≤ Z.of_nat (length src.1) ∧ n ≤ Z.of_nat (length dst) ∧
  r = take (Z.to_nat n) (drop (Z.to_nat src.2) src.1) ++ drop (Z.to_nat n) dst.
Proof.
  unfold memcpy.
  destruct (Z.leb_spec 0 n), (Z.leb_spec 0 src.2),
    (Z.leb_spec (src.2 + n) (Z.of_nat (length src.1))), (Z.leb_spec n (Z.of_nat (length dst)));
    simpl; intros [= <-]; auto with lia.
Qed.

Lemma memcpy_length dst (src : ptr A) n r : memcpy dst src n = Some r → length r = length dst.
Proof.
  intros (Hn & Ho & Hs & Hd & ->)%memcpy_Some.
  rewrite length_app, length_take, !length_drop. lia.
Qed.

(** After [memcpy], the first [n] elements are those of the source. *)
Lemma memcpy_rd dst (src : ptr A) n r i :
  memcpy dst src n = Some r → 0 ≤ i < n → rd r i = ptr_rd src i.
Proof.
  intros (Hn & Ho & Hs & Hd & ->)%memcpy_Some Hi.
  unfold ptr_rd, rd.
  destruct (Z.ltb_spec i 0), (Z.ltb_spec (src.2 + i) 0); try lia.
  rewrite lookup_app_l by (rewrite length_take, length_drop; lia).
  rewrite lookup_take_lt by lia. rewrite lookup_drop. f_equal. lia.
Qed.

(** A [memcpy] over a whole vector leaves exactly the source range. *)
Lemma memcpy_whole dst (src : ptr A) n r :
  memcpy dst src n = Some r → Z.of_nat (length dst) = n →
  r = take (Z.to_nat n) (drop (Z.to_nat src.2) src.1).
Proof.
  intros (Hn & Ho & Hs & Hd & ->)%memcpy_Some Hl.
  rewrite (drop_ge dst) by lia. apply app_nil_r.
Qed.

Lemma memcpy_defined dst (src : ptr A) n :
  0 ≤ n → 0 ≤ src.2 → src.2 + n ≤ Z.of_nat (length src.1) → n ≤ Z.of_nat (length dst) →
  is_Some (memcpy dst src n).
Proof.
  intros Hn Ho Hs Hd. unfold memcpy.
  destruct (Z.leb_spec 0 n), (Z.leb_spec 0 src.2),
    (Z.leb_spec (src.2 + n) (Z.of_nat (length src.1))), (Z.leb_spec n (Z.of_nat (length dst)));
    try lia. by eexists.
Qed.
End memory_facts.

(** * The evaluation step *)

Section elongation_loop.
Variables (deformed ref : ptr mjtNum) (prev : list mjtNum) (kD : mjtNum).

Lemma elongation_step_Some idx e e' :
  elongation_step deformed ref prev kD idx e = Some e' →
  ∃ dl r p, ptr_rd deformed idx = Some dl ∧ ptr_rd ref idx = Some r ∧ rd prev idx = Some p ∧
            wr e idx (edge_elongation dl r p kD) = Some e'.
Proof.
  unfold elongation_step. intros H.
  destruct (ptr_rd deformed idx) as [dl|]; [|done].
  destruct (ptr_rd ref idx) as [r|]; [|done].
  destruct (rd prev idx) as [p|]; [|done].
  simpl in H. eauto 10.
Qed.

(** The loop over the edges writes every index of its range once and
    nothing else. *)
Lemma elongation_loop_spec (n : nat) : ∀ i e0 e,
  for_range n i (elongation_step deformed ref prev kD) e0 = Some e →
  length e = length e0 ∧
  (∀ idx, i ≤ idx < i + Z.of_nat n →
     ∃ dl r p, ptr_rd deformed idx = Some dl ∧ ptr_rd ref idx = Some r ∧ rd prev idx = Some p ∧
               rd e idx = Some (edge_elongation dl r p kD)) ∧
  (∀ idx, ¬ (i ≤ idx < i + Z.of_nat n) → rd e idx = rd e0 idx).
Proof.
  induction n as [|n IH]; intros i e0 e; cbn [for_range].
  - intros [= <-]. split; [done|]. split; [lia|done].
  - destruct (elongation_step deformed ref prev kD i e0) as [e1|] eqn:Hstep; [|done].
    simpl. intros Hrest.
    apply elongation_step_Some in Hstep as (dl & r & p & Hd & Hr & Hp & Hw).
    destruct (IH _ _ _ Hrest) as (Hlen & Hin & Hout).
    split; [rewrite Hlen; eapply wr_length, Hw|]. split.
    + intros idx Hidx. destruct (decide (idx = i)) as [->|Hne].
      * exists dl, r, p. rewrite Hout by lia. eauto using rd_wr_eq.
      * apply Hin. lia.
    + intros idx Hidx. rewrite Hout by lia. eapply rd_wr_ne; [exact Hw|lia].
Qed.

Lemma elongation_loop_defined (n : nat) : ∀ i e0,
  (∀ idx, i ≤ idx < i + Z.of_nat n →
     is_Some (ptr_rd deformed idx) ∧ is_Some (ptr_rd ref idx) ∧ is_Some (rd prev idx) ∧
     0 ≤ idx < Z.of_nat (length e0)) →
  is_Some (for_range n i (elongation_step deformed ref prev kD) e0).
Proof.
  induction n as [|n IH]; intros i e0 Hok; cbn [for_range]; [done|].
  destruct (Hok i ltac:(lia)) as ([dl Hd] & [r Hr] & [p Hp] & Hi).
  assert (Hstep : elongation_step deformed ref prev kD i e0
                  = Some (<[Z.to_nat i := edge_elongation dl r p kD]> e0)).
  { unfold elongation_step. rewrite Hd, Hr, Hp. simpl.
    unfold wr. by destruct (Z.leb_spec 0 i), (Z.ltb_spec i (Z.of_nat (length e0))); try lia. }
  rewrite Hstep. simpl. apply IH. intros idx Hidx. rewrite length_insert. apply Hok. lia.
Qed.
End elongation_loop.

Lemma init_prev_nonempty self ref :
  prev self ≠ [] → init_prev self ref = Some (prev self).
Proof. unfold init_prev. by destruct (prev self). Qed.

Lemma init_prev_empty self ref p :
  prev self = [] → init_prev self ref = Some p →
  0 ≤ ne self ∧ p = take (Z.to_nat (ne self)) (drop (Z.to_nat ref.2) ref.1) ∧
  Z.of_nat (length p) = ne self ∧
  ∀ idx, 0 ≤ idx < ne self → rd p idx = ptr_rd ref idx.
Proof.
  unfold init_prev. intros ->.
  destruct (assign (ne self) 0%float) as [z|] eqn:Hz; [|done]. simpl.
  apply assign_Some in Hz as [Hn ->]. intros Hc.
  assert (Hl : Z.of_nat (length (replicate (Z.to_nat (ne self)) 0%float)) = ne self)
    by (rewrite length_replicate; lia).
  split; [done|]. split; [by apply memcpy_whole in Hc|]. split.
  - apply memcpy_length in Hc. lia.
  - intros idx Hidx. by eapply memcpy_rd.
Qed.

(** What a completed evaluation step did, in program order. *)
Lemma Compute_inv `{Host} m d instance self self' d' :
  Compute m d instance self = Some (self', d') →
  let kD := (damping self / opt_timestep m)%float in
  ∃ edgeadr prev1 vertadr,
    rd (flex_edgeadr m) (f0 self) = Some edgeadr ∧
    init_prev self (flexedge_length0 m, edgeadr) = Some prev1 ∧
    for_loop 0 (ne self)
      (elongation_step (flexedge_length d, edgeadr) (flexedge_length0 m, edgeadr) prev1 kD)
      (elongation self) = Some (elongation self') ∧
    rd (flex_vertadr m) (f0 self) = Some vertadr ∧
    ComputeForce (force self) (elongation self') m (f0 self) (flexvert_xpos d, 3 * vertadr)
      = Some (force self') ∧
    AddFlexForce (qfrc_passive d) (force self') m d (flexvert_xpos d, 3 * vertadr) (f0 self)
      = Some (qfrc_passive d') ∧
    update_prev kD prev1 (flexedge_length d, edgeadr) (ne self) = Some (prev self') ∧
    f0 self' = f0 self ∧ i0 self' = i0 self ∧ nv self' = nv self ∧ ne self' = ne self ∧
    damping self' = damping self ∧ thickness self' = thickness self ∧
    flexedge_length d' = flexedge_length d ∧ flexvert_xpos d' = flexvert_xpos d.
Proof.
  unfold Compute. intros Hc.
  destruct (rd (flex_edgeadr m) (f0 self)) as [edgeadr|] eqn:E1; [|done]. simpl in Hc.
  destruct (init_prev self _) as [prev1|] eqn:E2; [|done]. simpl in Hc.
  destruct (for_loop 0 (ne self) _ _) as [elong|] eqn:E3; [|done]. simpl in Hc.
  destruct (rd (flex_vertadr m) (f0 self)) as [vertadr|] eqn:E4; [|done]. simpl in Hc.
  destruct (ComputeForce _ _ _ _ _) as [frc|] eqn:E5; [|done]. simpl in Hc.
  destruct (AddFlexForce _ _ _ _ _ _) as [qfrc|] eqn:E6; [|done]. simpl in Hc.
  destruct (update_prev _ _ _ _) as [prev2|] eqn:E7; [|done]. simpl in Hc.
  injection Hc as <- <-. simpl. exists edgeadr, prev1, vertadr. repeat split; done.
Qed.

(** Every edge of a completed step got its elongation from the lengths at
    its own index. *)
Lemma Compute_edge `{Host} m d instance self self' d' edgeadr prev1 idx deformed ref previous :
  Compute m d instance self = Some (self', d') →
  rd (flex_edgeadr m) (f0 self) = Some edgeadr →
  init_prev self (flexedge_length0 m, edgeadr) = Some prev1 →
  0 ≤ idx < ne self →
  rd (flexedge_length d) (edgeadr + idx) = Some deformed →
  rd (flexedge_length0 m) (edgeadr + idx) = Some ref →
  rd prev1 idx = Some previous →
  rd (elongation self') idx
  = Some (edge_elongation deformed ref previous (damping self / opt_timestep m)%float).
Proof.
  intros Hc Ha Hp Hidx Hd Hr Hv.
  apply Compute_inv in Hc as (a' & p' & va & Ha' & Hp' & Hloop & _).
  rewrite Ha in Ha'. injection Ha' as <-. rewrite Hp in Hp'. injection Hp' as <-.
  unfold for_loop in Hloop. apply elongation_loop_spec in Hloop as (_ & Hin & _).
  destruct (Hin idx ltac:(lia)) as (dl & r & p & Hd' & Hr' & Hv' & He).
  unfold ptr_rd in Hd', Hr'. simpl in Hd', Hr'. congruence.
Qed.

(** An evaluation step completes when the arrays cover the edges of the
    flex, the instance has the sizes the constructor gave it, and the two
    functions of the host return. *)
Lemma Compute_defined `{Host} m d instance self edgeadr vertadr :
  rd (flex_edgeadr m) (f0 self) = Some edgeadr →
  rd (flex_vertadr m) (f0 self) = Some vertadr →
  0 ≤ edgeadr → 0 ≤ ne self →
  edgeadr + ne self ≤ Z.of_nat (length (flexedge_length d)) →
  edgeadr + ne self ≤ Z.of_nat (length (flexedge_length0 m)) →
  Z.of_nat (length (elongation self)) = ne self →
  (prev self = [] ∨ Z.of_nat (length (prev self)) = ne self) →
  (∀ elong, is_Some (ComputeForce (force self) elong m (f0 self)
                       (flexvert_xpos d, 3 * vertadr))) →
  (∀ frc, is_Some (AddFlexForce (qfrc_passive d) frc m d
                     (flexvert_xpos d, 3 * vertadr) (f0 self))) →
  is_Some (Compute m d instance self).
Proof.
  intros Ha Hva H0 Hne Hd Hr He Hp Hforce Hadd. unfold Compute. rewrite Ha. simpl.
  assert (∃ prev1, init_prev self (flexedge_length0 m, edgeadr) = Some prev1 ∧
                   Z.of_nat (length prev1) = ne self) as (prev1 & -> & Hl1).
  { destruct (decide (prev self = [])) as [Hem|Hn].
    - unfold init_prev, assign. rewrite Hem. destruct (Z.ltb_spec (ne self) 0); [lia|]. simpl.
      destruct (memcpy_defined (replicate (Z.to_nat (ne self)) 0%float)
                  (flexedge_length0 m, edgeadr) (ne self)) as [p Hm];
        simpl; rewrite ?length_replicate; try lia.
      exists p. split; [done|]. apply memcpy_length in Hm. rewrite Hm, length_replicate. lia.
    - exists (prev self). split; [by apply init_prev_nonempty|]. by destruct Hp. }
  simpl. unfold for_loop.
  destruct (elongation_loop_defined (flexedge_length d, edgeadr) (flexedge_length0 m, edgeadr)
              prev1 (damping self / opt_timestep m)%float (Z.to_nat (ne self - 0)) 0
              (elongation self)) as [elong ->].
  { intros idx Hidx. unfold ptr_rd. simpl. repeat split; try (apply rd_is_Some; lia); lia. }
  simpl. rewrite Hva. simpl.
  destruct (Hforce elong) as [frc ->]. simpl.
  destruct (Hadd frc) as [qfrc ->]. simpl.
  assert (is_Some (update_prev (damping self / opt_timestep m)%float prev1
                     (flexedge_length d, edgeadr) (ne self))) as [prev2 ->].
  { unfold update_prev. destruct (fpos _); [|by eexists].
    apply memcpy_defined; simpl; lia. }
  by eexists.
Qed.

Import F64_facts Examples.
#[local] Existing Instance SpecHost.host.

Section elongation_facts.
Local Open Scope float_scope.

(** With a zero damping factor the damping term vanishes, provided the
    difference of squares it multiplies is finite. *)
Lemma edge_elongation_undamped (deformed ref previous kD : mjtNum) :
  is_zero kD = true →
  is_finite (deformed * deformed - previous * previous) = true →
  edge_elongation deformed ref previous kD = deformed * deformed - ref * ref.
Proof.
  intros Hk Hf. unfold edge_elongation.
  apply fadd_zero_r; [by apply fmul_zero_r | apply fsub_squares_not_negzero].
Qed.

(** At rest both terms vanish, provided the square and the damping factor
    are finite. *)
Lemma edge_elongation_rest (len kD : mjtNum) :
  is_finite (len * len) = true → is_finite kD = true →
  edge_elongation len len len kD = 0.
Proof.
  intros Hl Hk. unfold edge_elongation. rewrite (fsub_diag _ Hl).
  apply fadd_zero_r; [by apply fmul_zero_l | discriminate].
Qed.
End elongation_facts.

(** C1 (amended): in every completed evaluation step the elongation of
    every tracked edge is
    deformed^2 - reference^2 + (deformed^2 - previous^2) * (damping / timestep),
    computed in this order in double precision, where previous is the entry
    of the snapshot after the lazy initialisation.  When damping is zero,
    the time step is a nonzero number and deformed^2 - previous^2 is finite,
    this is exactly deformed^2 - reference^2. *)
Theorem Compute_elongation `{Host} m d instance self self' d' edgeadr prev1 idx
    (deformed ref previous : mjtNum) :
  Compute m d instance self = Some (self', d') →
  rd (flex_edgeadr m) (f0 self) = Some edgeadr →
  init_prev self (flexedge_length0 m, edgeadr) = Some prev1 →
  0 ≤ idx < ne self →
  rd (flexedge_length d) (edgeadr + idx) = Some deformed →
  rd (flexedge_length0 m) (edgeadr + idx) = Some ref →
  rd prev1 idx = Some previous →
  rd (elongation self') idx
  = Some (deformed * deformed - ref * ref
          + (deformed * deformed - previous * previous)
            * (damping self / opt_timestep m))%float
  ∧ (is_zero (damping self) = true →
     is_nan (opt_timestep m) = false → is_zero (opt_timestep m) = false →
     is_finite (deformed * deformed - previous * previous)%float = true →
     rd (elongation self') idx = Some (deformed * deformed - ref * ref)%float).
Proof.
  intros Hc Ha Hp Hidx Hd Hr Hv.
  pose proof (Compute_edge _ _ _ _ _ _ _ _ _ _ _ _ Hc Ha Hp Hidx Hd Hr Hv) as He.
  split; [exact He|].
  intros Hz Hn Hnz Hf. rewrite He. f_equal.
  apply edge_elongation_undamped; [by apply fdiv_zero_l | done].
Qed.

Lemma Compute_elongation_witness :
  Compute tri stretched 0 membrane0 ≠ None ∧
  rd (elongation (default membrane0 (fst <$> Compute tri stretched 0 membrane0))) 0
  = Some (6 * 6 - 5 * 5 + (6 * 6 - 5 * 5) * (0 / 0.5))%float.
Proof.
  split; [by vm_compute|].
  destruct (Compute tri stretched 0 membrane0) as [[self' d']|] eqn:Hc; [|by vm_compute in Hc].
  refine (proj1 (Compute_elongation tri stretched 0 membrane0 self' d' 0 [5; 3; 4]%float 0
                   6%float 5%float 5%float Hc _ _ _ _ _ _)); by vm_compute.
Defined.

(** C1, as stated, fails: with damping zero, an edge whose squared length
    overflows gets the elongation NaN, not deformed^2 - reference^2 (which is
    infinite). *)
Lemma Compute_elongation_overflow :
  ¬ (∀ `{Host} m d instance self self' d' edgeadr idx (deformed ref : mjtNum),
       Compute m d instance self = Some (self', d') →
       rd (flex_edgeadr m) (f0 self) = Some edgeadr →
       0 ≤ idx < ne self →
       rd (flexedge_length d) (edgeadr + idx) = Some deformed →
       rd (flexedge_length0 m) (edgeadr + idx) = Some ref →
       damping self = 0%float →
       rd (elongation self') idx = Some (deformed * deformed - ref * ref)%float).
Proof.
  intros Hclaim.
  assert (∃ self' d', Compute tri blown_up 0 membrane0 = Some (self', d') ∧
                      rd (elongation self') 0 = Some nan) as (self' & d' & Hc & He).
  { vm_compute. eexists _, _. split; reflexivity. }
  specialize (Hclaim SpecHost.host tri blown_up 0 membrane0 self' d' 0 0
                0x1p600%float 5%float Hc eq_refl ltac:(done) eq_refl eq_refl eq_refl).
  rewrite He in Hclaim.
  apply (f_equal (from_option is_nan false)) in Hclaim. by vm_compute in Hclaim.
Qed.

(** * Construction: how a computation of the constructor can end *)

Lemma bind_Done {A B} (c : build A) (f : A → build B) k b k' :
  bind c f k = Done b k' → ∃ a k1, c k = Done a k1 ∧ f a k1 = Done b k'.
Proof. unfold bind. destruct (c k) as [a k1|e k1|]; [eauto|done|done]. Qed.

Lemma bind_Fatal {A B} (c : build A) (f : A → build B) k e k' :
  bind c f k = Fatal e k' →
  c k = Fatal e k' ∨ ∃ a k1, c k = Done a k1 ∧ f a k1 = Fatal e k'.
Proof.
  unfold bind. destruct (c k) as [a k1|e1 k1|]; [eauto|intros [= <- <-]; eauto|done].
Qed.

Lemma lift_Done {A} (o : option A) k a k' : lift o k = Done a k' → o = Some a ∧ k' = k.
Proof. unfold lift. destruct o; [intros [= <- <-]; done|done]. Qed.

Lemma lift_not_Fatal {A} (o : option A) k e k' : lift o k ≠ Fatal e k'.
Proof. unfold lift. by destruct o. Qed.

Lemma bind_lift_Done {A B} (o : option A) (f : A → build B) k b k' :
  bind (lift o) f k = Done b k' → ∃ a, o = Some a ∧ f a k = Done b k'.
Proof.
  intros (a & k1 & [-> ->]%lift_Done & Hf)%bind_Done. eauto.
Qed.

Lemma bind_lift_Fatal {A B} (o : option A) (f : A → build B) k e k' :
  bind (lift o) f k = Fatal e k' → ∃ a, o = Some a ∧ f a k = Fatal e k'.
Proof.
  intros [Hl|(a & k1 & [-> ->]%lift_Done & Hf)]%bind_Fatal; [|eauto].
  by apply lift_not_Fatal in Hl.
Qed.

(** The instance a completed construction returns. *)
Lemma Membrane_ctor_Done `{Host} m d instance nu E thick damp k self k' :
  Membrane_ctor m d instance nu E thick damp k = Done self k' →
  prev self = [] ∧ damping self = damp ∧ thickness self = thick ∧
  0 ≤ ne self ∧ rd (flex_edgenum m) (f0 self) = Some (ne self) ∧
  elongation self = replicate (Z.to_nat (ne self)) 0%float ∧
  force self = replicate (Z.to_nat (3 * nv self)) 0%float.
Proof.
  unfold Membrane_ctor. intros Hc.
  apply bind_lift_Done in Hc as ([nv0 i00] & _ & Hc).
  apply bind_lift_Done in Hc as ([f00 nv1] & _ & Hc).
  apply bind_lift_Done in Hc as (vertadr & _ & Hc).
  apply bind_lift_Done in Hc as (elemdataadr & _ & Hc).
  apply bind_lift_Done in Hc as (elemnum & _ & Hc).
  apply bind_Done in Hc as ([] & k1 & _ & Hc).
  apply bind_lift_Done in Hc as (ne0 & Hne & Hc).
  apply bind_lift_Done in Hc as (el & [Hn ->]%assign_Some & Hc).
  apply bind_lift_Done in Hc as (fo & [_ ->]%assign_Some & Hc).
  injection Hc as <- <-. simpl. done.
Qed.

(** * The previous-length snapshot *)

Section sign_facts.
Local Open Scope float_scope.

Lemma fpos_spec a :
  fpos a = match Prim2SF a with
           | S754_infinity false | S754_finite false _ _ => true
           | _ => false
           end.
Proof.
  unfold fpos. rewrite FloatAxioms.ltb_spec.
  change (Prim2SF 0) with (S754_zero false).
  destruct (Prim2SF a) as [s|s| |s m e]; try reflexivity; by destruct s.
Qed.

(** [0 / b] is never positive. *)
Lemma fpos_div_zero a b : is_zero a = true → fpos (a / b) = false.
Proof.
  rewrite is_zero_spec, fpos_spec, div_spec.
  unfold SF64div, SFdiv.
  destruct (Prim2SF a) as [sa|sa| |sa ma ea]; try done. intros _.
  by destruct (Prim2SF b) as [sb|sb| |sb mb eb].
Qed.

(** A positive quotient by a positive divisor has a positive dividend. *)
Lemma fpos_div_pos a b : fpos b = true → fpos (a / b) = true → fpos a = true.
Proof.
  rewrite !fpos_spec, div_spec. unfold SF64div, SFdiv.
  destruct (Prim2SF b) as [sb|[|]| |[|] mb eb]; try done; intros _;
    destruct (Prim2SF a) as [[|]|[|]| |[|] ma ea]; try done.
  all: destruct (SFdiv_core_binary _ _ _ _ _ _) as [[mz ez] lz]; cbn [xorb].
  all: pose proof (bra_sign true mz ez lz) as Hs.
  all: by destruct (F64.bra _ _ _ _) as [s|s| |s m e]; try done; subst s.
Qed.
End sign_facts.

Lemma update_prev_Some kD prev1 (deformed : ptr mjtNum) n p2 :
  update_prev kD prev1 deformed n = Some p2 →
  length p2 = length prev1 ∧
  (fpos kD = true →
     p2 = take (Z.to_nat n) (drop (Z.to_nat deformed.2) deformed.1) ++ drop (Z.to_nat n) prev1 ∧
     ∀ idx, 0 ≤ idx < n → rd p2 idx = ptr_rd deformed idx) ∧
  (fpos kD = false → p2 = prev1).
Proof.
  unfold update_prev. destruct (fpos kD).
  - intros Hm. split; [by eapply memcpy_length|]. split; [|done]. intros _. split.
    + by apply memcpy_Some in Hm as (_ & _ & _ & _ & ->).
    + intros idx Hidx. by eapply memcpy_rd.
  - intros [= <-]. done.
Qed.

(** The sizes that every state of an instance keeps. *)
Lemma reachable_sizes `{Host} self :
  reachable self →
  0 ≤ ne self ∧ Z.of_nat (length (elongation self)) = ne self ∧
  (prev self = [] ∨ Z.of_nat (length (prev self)) = ne self).
Proof.
  induction 1 as [m d instance nu E thick damp k self k' Hc
                 |m d instance self self' d' Hr (Hne & Hel & Hpr) Hc].
  - apply Membrane_ctor_Done in Hc as (Hp & _ & _ & Hn & _ & He & _).
    rewrite He, length_replicate. split; [done|]. split; [lia|by left].
  - apply Compute_inv in Hc
      as (adr & prev1 & va & _ & Hi & Hl & _ & _ & _ & Hu & _ & _ & _ & -> & _).
    split; [done|].
    unfold for_loop in Hl. apply elongation_loop_spec in Hl as (-> & _ & _).
    split; [done|]. right.
    apply update_prev_Some in Hu as (-> & _).
    destruct (decide (prev self = [])) as [He|Hn].
    + by apply init_prev_empty in Hi as (_ & _ & ? & _).
    + rewrite init_prev_nonempty in Hi by done. injection Hi as <-.
      by destruct Hpr.
Qed.

(** C9: in every reachable state of an instance the previous-length
    snapshot is empty or has exactly one entry per tracked edge. *)
Theorem prev_empty_or_full `{Host} self :
  reachable self → prev self = [] ∨ Z.of_nat (length (prev self)) = ne self.
Proof. intros Hr. by apply reachable_sizes in Hr as (_ & _ & ?). Qed.

Lemma reachable_membrane1 : reachable membrane1.
Proof.
  refine (reachable_Compute tri rest 0 membrane0 membrane1 rest
            (reachable_ctor tri rest 0 0.25 1000 0.5 0 (flex_stiffness tri) membrane0 stiffness0 _) _);
    by vm_compute.
Qed.

Lemma prev_empty_or_full_witness :
  reachable membrane1 ∧
  (prev membrane1 = [] ∨ Z.of_nat (length (prev membrane1)) = ne membrane1).
Proof. split; [exact reachable_membrane1 | exact (prev_empty_or_full membrane1 reachable_membrane1)]. Defined.

(** C4: when an evaluation starts without a snapshot, the snapshot is first
    made a full copy of the reference lengths of the tracked edges, so the
    previous length that enters the elongation of every edge is its
    reference length; no later lazy initialisation changes the snapshot
    again. *)
Theorem first_evaluation `{Host} m d instance self self' d' edgeadr prev1 :
  prev self = [] →
  Compute m d instance self = Some (self', d') →
  rd (flex_edgeadr m) (f0 self) = Some edgeadr →
  init_prev self (flexedge_length0 m, edgeadr) = Some prev1 →
  prev1 = take (Z.to_nat (ne self)) (drop (Z.to_nat edgeadr) (flexedge_length0 m))
  ∧ Z.of_nat (length prev1) = ne self
  ∧ (∀ idx deformed ref,
       0 ≤ idx < ne self →
       rd (flexedge_length d) (edgeadr + idx) = Some deformed →
       rd (flexedge_length0 m) (edgeadr + idx) = Some ref →
       rd prev1 idx = Some ref
       ∧ rd (elongation self') idx
         = Some (edge_elongation deformed ref ref (damping self / opt_timestep m)%float))
  ∧ (∀ ref' p, init_prev self' ref' = Some p → p = prev self').
Proof.
  intros He Hc Ha Hi.
  destruct (init_prev_empty _ _ _ He Hi) as (Hn & Hp & Hl & Hrd).
  split; [done|]. split; [done|]. split.
  - intros idx deformed ref Hidx Hd Hr.
    assert (Hv : rd prev1 idx = Some ref) by (rewrite Hrd by done; exact Hr).
    split; [done|]. by eapply Compute_edge.
  - apply Compute_inv in Hc
      as (adr & p1 & va & Ha' & Hi' & _ & _ & _ & _ & Hu & _ & _ & _ & Hne & _).
    rewrite Ha in Ha'. injection Ha' as <-. rewrite Hi in Hi'. injection Hi' as <-.
    apply update_prev_Some in Hu as (Hlen & _).
    intros ref' p Hp'.
    destruct (decide (prev self' = [])) as [He'|Hn'].
    + apply init_prev_empty in Hp' as (_ & _ & Hlp & _); [|done].
      rewrite He' in *. destruct p; [done|]. simpl in *. lia.
    + rewrite init_prev_nonempty in Hp' by done. by injection Hp'.
Qed.

Lemma first_evaluation_witness :
  prev membrane0 = [] ∧
  [5; 3; 4]%float = take (Z.to_nat (ne membrane0)) (drop (Z.to_nat 0) (flexedge_length0 tri)).
Proof.
  split; [done|].
  refine (proj1 (first_evaluation tri stretched 0 membrane0
                   (default membrane0 (fst <$> Compute tri stretched 0 membrane0))
                   (default stretched (snd <$> Compute tri stretched 0 membrane0))
                   0 [5; 3; 4]%float _ _ _ _)); by vm_compute.
Defined.

(** C5 (amended): at the end of a completed evaluation step the snapshot is
    overwritten with this step's deformed lengths exactly when
    damping / timestep > 0, and is otherwise the snapshot left by the lazy
    initialisation.  When damping is zero it is left unchanged, whatever
    the time step; with a positive time step it is only overwritten when
    damping > 0. *)
Theorem prev_update `{Host} m d instance self self' d' edgeadr prev1 :
  Compute m d instance self = Some (self', d') →
  rd (flex_edgeadr m) (f0 self) = Some edgeadr →
  init_prev self (flexedge_length0 m, edgeadr) = Some prev1 →
  (fpos (damping self / opt_timestep m) = true →
     length (prev self') = length prev1 ∧
     ∀ idx, 0 ≤ idx < ne self → rd (prev self') idx = rd (flexedge_length d) (edgeadr + idx))
  ∧ (fpos (damping self / opt_timestep m) = false → prev self' = prev1)
  ∧ (is_zero (damping self) = true →
       prev self' = prev1 ∧ (prev self ≠ [] → prev self' = prev self))
  ∧ (fpos (opt_timestep m) = true → fpos (damping self / opt_timestep m) = true →
       fpos (damping self) = true).
Proof.
  intros Hc Ha Hi.
  apply Compute_inv in Hc
    as (adr & p1 & va & Ha' & Hi' & _ & _ & _ & _ & Hu & _).
  rewrite Ha in Ha'. injection Ha' as <-. rewrite Hi in Hi'. injection Hi' as <-.
  apply update_prev_Some in Hu as (Hlen & Hpos & Hneg).
  split; [|split; [|split]].
  - intros Hk. split; [done|]. by apply Hpos.
  - done.
  - intros Hz. assert (Hp : prev self' = prev1) by (apply Hneg; by apply fpos_div_zero).
    split; [done|]. intros Hn. rewrite init_prev_nonempty in Hi by done. congruence.
  - intros Ht Hk. exact (fpos_div_pos _ _ Ht Hk).
Qed.

Lemma prev_update_witness :
  is_zero (damping membrane1) = true ∧
  default [] (prev <$> (fst <$> Compute tri stretched 0 membrane1)) = prev membrane1.
Proof.
  split; [done|].
  destruct (Compute tri stretched 0 membrane1) as [[self' d']|] eqn:Hc; [|by vm_compute in Hc].
  simpl.
  refine (proj2 (proj1 (proj2 (proj2
            (prev_update tri stretched 0 membrane1 self' d' 0 (prev membrane1) Hc _ _))) _) _);
    by vm_compute.
Defined.

(** C5, as stated, fails: the test is on damping / timestep, so with a
    negative time step a negative damping overwrites the snapshot. *)
Lemma prev_update_negative_damping :
  ¬ (∀ `{Host} m d instance self self' d',
       Compute m d instance self = Some (self', d') →
       prev self ≠ [] → prev self' ≠ prev self → fpos (damping self) = true).
Proof.
  intros Hclaim.
  pose (m := with_timestep tri (-0.5)%float).
  pose (self := with_damping membrane1 (-1)%float).
  assert (∃ self' d', Compute m stretched 0 self = Some (self', d') ∧
                      prev self' = [6; 3; 5]%float) as (self' & d' & Hc & Hp).
  { vm_compute. eexists _, _. split; reflexivity. }
  specialize (Hclaim SpecHost.host m stretched 0 self self' d' Hc).
  assert (Hf : fpos (damping self) = true); [|by vm_compute in Hf].
  apply Hclaim; [done|]. rewrite Hp. intros Heq.
  apply (f_equal (λ l, from_option (feq 5) false (head l))) in Heq. by vm_compute in Heq.
Qed.

(** * The basis tensor *)

Section basis_facts.
Local Open Scope float_scope.


(** A double that is not NaN compares equal to itself. *)
Lemma feq_refl a : is_nan a = false → feq a a = true.
Proof. unfold is_nan, feq. by destruct (a =? a). Qed.
End basis_facts.

(** The nine entries, in the order the double loop writes them. *)
Lemma basis_fill_rd basisL basisR area i j :
  0 ≤ i < 3 → 0 ≤ j < 3 →
  rd (basis_fill basisL basisR area) (3 * i + j) = Some (basis_entry basisL basisR area i j).
Proof.
  intros Hi Hj.
  assert (i = 0 ∨ i = 1 ∨ i = 2) as [->|[->| ->]] by lia;
    assert (j = 0 ∨ j = 1 ∨ j = 2) as [->|[->| ->]] by lia; reflexivity.
Qed.

Lemma ComputeBasis_Some x v faceL faceR area basis :
  ComputeBasis x v faceL faceR area = Some basis →
  ∃ basisL basisR, basis = basis_fill basisL basisR area.
Proof.
  unfold ComputeBasis. intros Hc.
  destruct (vertex x v faceL.1) as [l0|]; [|done]. simpl in Hc.
  destruct (vertex x v faceL.2) as [l1|]; [|done]. simpl in Hc.
  destruct (vertex x v faceR.2) as [r1|]; [|done]. simpl in Hc.
  destruct (vertex x v faceR.1) as [r0|]; [|done]. simpl in Hc.
  injection Hc as <-. eauto.
Qed.





(** With the product and the sum contracted into a fused multiply-add the
    expression is not symmetric in i and j: the entry (0, 1) keeps the
    rounding error of the product that the entry (1, 0) rounds away. *)
Lemma basis_entry_contracted_asymmetric :
  ∃ basisL basisR area,
    is_zero area = false ∧
    basis_entry basisL basisR area 0 1 = basis_entry basisL basisR area 1 0 ∧
    basis_entry_contracted basisL basisR area 0 1 ≠ basis_entry_contracted basisL basisR area 1 0.
Proof.
  exists (Vec3 0x1.0000000000001p0 0x1.0000000000002p0 0),
         (Vec3 (-1) 0x1.0000000000001p0 0), 1%float.
  split; [done|]. split; [by vm_compute|].
  intros Heq. apply (f_equal is_zero) in Heq. by vm_compute in Heq.
Qed.

(** * The connectivity scan *)

Section check_vertex_facts.
Variables (m : mjModel) (instance f0 : Z) (v : ptr Z).

(** The three ways the test of a vertex can go. *)
Lemma check_vertex_world i k :
  vertex_bodyid m f0 v i = Some 0 →
  check_vertex m instance f0 v i k = Done tt k.
Proof. intros Hb. unfold check_vertex, bind, lift. by rewrite Hb. Qed.

Lemma check_vertex_own i k bi :
  vertex_bodyid m f0 v i = Some bi →
  rd (body_plugin m) bi = Some instance →
  check_vertex m instance f0 v i k = Done tt k.
Proof.
  intros Hb Hp. unfold check_vertex, bind, lift. rewrite Hb.
  destruct (bi =? 0); [done|]. by rewrite Hp, Z.eqb_refl.
Qed.

Lemma check_vertex_foreign i k bi bp :
  vertex_bodyid m f0 v i = Some bi → bi ≠ 0 →
  rd (body_plugin m) bi = Some bp → bp ≠ instance →
  check_vertex m instance f0 v i k = Fatal (BodyWithoutPlugin bi instance) k.
Proof.
  intros Hb Hn Hp Hne. unfold check_vertex, bind, lift. rewrite Hb.
  destruct (Z.eqb_spec bi 0); [done|]. rewrite Hp.
  by destruct (Z.eqb_spec bp instance).
Qed.

Lemma check_vertex_Done i k k' : check_vertex m instance f0 v i k = Done tt k' → k' = k.
Proof.
  unfold check_vertex, bind, lift, ret, mju_error.
  destruct (vertex_bodyid m f0 v i) as [bi|]; [|done].
  destruct (bi =? 0); [by intros [= <-]|].
  destruct (rd (body_plugin m) bi) as [bp|]; [|done].
  destruct (bp =? instance); [by intros [= <-]|done].
Qed.

(** The fatal error names a body other than the world whose plugin is not
    the instance under construction, and leaves the storage as it was. *)
Lemma check_vertex_Fatal i k e k' :
  check_vertex m instance f0 v i k = Fatal e k' →
  k' = k ∧
  ∃ bi bp,
    vertex_bodyid m f0 v i = Some bi ∧ bi ≠ 0 ∧
    rd (body_plugin m) bi = Some bp ∧ bp ≠ instance ∧
    e = BodyWithoutPlugin bi instance.
Proof.
  unfold check_vertex, bind, lift, ret, mju_error.
  destruct (vertex_bodyid m f0 v i) as [bi|] eqn:Hb; [|done].
  destruct (Z.eqb_spec bi 0); [done|].
  destruct (rd (body_plugin m) bi) as [bp|] eqn:Hp; [|done].
  destruct (Z.eqb_spec bp instance); [done|].
  intros [= <- <-]. split; [done|]. exists bi, bp. done.
Qed.

Lemma check_loop_Done n : ∀ i k k',
  for_build n i (check_vertex m instance f0 v) k = Done tt k' → k' = k.
Proof.
  induction n as [|n IH]; intros i k k'; cbn [for_build]; [by intros [= <-]|].
  intros ([] & k1 & ->%check_vertex_Done & Hr)%bind_Done. by apply IH in Hr.
Qed.
End check_vertex_facts.

Section for_build_facts.
Variable body : Z → build unit.

Lemma for_build_S n i k :
  for_build (S n) i body k
  = match body i k with
    | Done _ k1 => for_build n (i + 1) body k1
    | Fatal e k1 => Fatal e k1
    | Undefined => Undefined
    end.
Proof. reflexivity. Qed.

(** A loop that stops in [mju_error] completed the iterations before the
    failing one. *)
Lemma for_build_Fatal n : ∀ i k e k',
  for_build n i body k = Fatal e k' →
  ∃ j k1, (j < n)%nat ∧
          for_build j i body k = Done tt k1 ∧ body (i + Z.of_nat j) k1 = Fatal e k'.
Proof.
  induction n as [|n IH]; intros i k e k'; [done|].
  rewrite for_build_S. destruct (body i k) as [[] k1|e1 k1|] eqn:Hb; [| |done].
  - intros (j & k2 & Hj & Hd & Hf)%IH. exists (S j), k2. split; [lia|].
    rewrite for_build_S, Hb. split; [done|]. by replace (i + Z.of_nat (S j)) with (i + 1 + Z.of_nat j) by lia.
  - intros [= <- <-]. exists 0%nat, k. split; [lia|]. split; [done|].
    by replace (i + Z.of_nat 0) with i by lia.
Qed.

(** Conversely, the first failing iteration ends the loop. *)
Lemma for_build_stop n j i k k1 e k' :
  (j < n)%nat → for_build j i body k = Done tt k1 →
  body (i + Z.of_nat j) k1 = Fatal e k' →
  for_build n i body k = Fatal e k'.
Proof.
  revert j i k. induction n as [|n IH]; intros j i k Hj Hd Hf; [lia|].
  rewrite for_build_S. destruct j as [|j].
  - injection Hd as <-. replace (i + Z.of_nat 0) with i in Hf by lia. by rewrite Hf.
  - rewrite for_build_S in Hd. destruct (body i k) as [[] k2|e2 k2|]; [|done|done].
    apply (IH j); [lia|done|]. by replace (i + 1 + Z.of_nat j) with (i + Z.of_nat (S j)) by lia.
Qed.

Lemma for_build_pure n : ∀ i k,
  (∀ j, i ≤ j < i + Z.of_nat n → body j k = Done tt k) →
  for_build n i body k = Done tt k.
Proof.
  induction n as [|n IH]; intros i k Hb; [done|].
  rewrite for_build_S, Hb by lia. apply IH. intros j Hj. apply Hb. lia.
Qed.
End for_build_facts.

Section build_element_facts.
Context `{Host}.
Variables (m : mjModel) (instance : Z) (nu E thick : mjtNum) (f0 : Z).
Variables (body_pos : ptr mjtNum) (elem : ptr Z).

(** An element can only stop in [mju_error] in its vertex test, before it
    touches the stiffness storage. *)
Lemma build_element_Fatal t k e k' :
  build_element m instance nu E thick f0 body_pos elem t k = Fatal e k' →
  k' = k ∧
  ∃ dim i bi bp,
    rd (flex_dim m) f0 = Some dim ∧ 0 ≤ i < kNumVerts ∧
    vertex_bodyid m f0 (ptr_add elem ((dim + 1) * t)) i = Some bi ∧ bi ≠ 0 ∧
    rd (body_plugin m) bi = Some bp ∧ bp ≠ instance ∧
    e = BodyWithoutPlugin bi instance.
Proof.
  unfold build_element. intros (dim & Hdim & Hc)%bind_lift_Fatal.
  apply bind_Fatal in Hc as [Hloop|([] & k1 & Hloop & Hc)].
  - apply for_build_Fatal in Hloop as (j & k1 & Hj & Hd & Hf).
    apply check_loop_Done in Hd as ->.
    apply check_vertex_Fatal in Hf as (-> & bi & bp & Hb & Hn & Hp & Hne & ->).
    split; [done|]. exists dim, (0 + Z.of_nat j), bi, bp.
    unfold kNumVerts in *. split; [done|]. split; [lia|]. done.
  - exfalso. apply bind_lift_Fatal in Hc as (volume & _ & Hc).
    apply bind_lift_Fatal in Hc as (basis & _ & Hc).
    apply bind_lift_Fatal in Hc as (adr & _ & Hc).
    by destruct (MetricTensor _ _ _ _ _).
Qed.

(** The first vertex of an element that fails the test stops the element
    with the storage as it found it. *)
Lemma build_element_stop t k dim i bi bp :
  rd (flex_dim m) f0 = Some dim →
  0 ≤ i < kNumVerts →
  (∀ j, 0 ≤ j < i →
     check_vertex m instance f0 (ptr_add elem ((dim + 1) * t)) j k = Done tt k) →
  vertex_bodyid m f0 (ptr_add elem ((dim + 1) * t)) i = Some bi → bi ≠ 0 →
  rd (body_plugin m) bi = Some bp → bp ≠ instance →
  build_element m instance nu E thick f0 body_pos elem t k
  = Fatal (BodyWithoutPlugin bi instance) k.
Proof.
  intros Hdim Hi Hbefore Hb Hn Hp Hne. unfold build_element.
  unfold bind at 1. unfold lift at 1. rewrite Hdim.
  unfold bind at 1.
  rewrite (for_build_stop _ (Z.to_nat kNumVerts) (Z.to_nat i) 0 k k
             (BodyWithoutPlugin bi instance) k); [done|unfold kNumVerts in *; lia| |].
  - apply for_build_pure. intros j Hj. apply Hbefore. lia.
  - replace (0 + Z.of_nat (Z.to_nat i)) with i by lia. by eapply check_vertex_foreign.
Qed.

(** What a completed element did: the tensor assembly received the two
    coefficients computed from the area of the element. *)
Lemma build_element_Done t k k' :
  build_element m instance nu E thick f0 body_pos elem t k = Done tt k' →
  ∃ dim volume basis adr,
    rd (flex_dim m) f0 = Some dim ∧
    ComputeVolume body_pos (ptr_add elem ((dim + 1) * t)) = Some volume ∧
    mapM (edge_basis body_pos (ptr_add elem ((dim + 1) * t)) volume) (seqZ 0 kNumEdges)
      = Some basis ∧
    rd (flex_elemadr m) f0 = Some adr ∧
    MetricTensor (k, 21 * adr) t (mu E nu volume thick) (la E nu volume thick) basis = Some k'.
Proof.
  unfold build_element. intros (dim & Hdim & Hc)%bind_lift_Done.
  apply bind_Done in Hc as ([] & k1 & ->%check_loop_Done & Hc).
  apply bind_lift_Done in Hc as (volume & Hv & Hc).
  apply bind_lift_Done in Hc as (basis & Hb & Hc).
  apply bind_lift_Done in Hc as (adr & Ha & Hc).
  destruct (MetricTensor _ _ _ _ _) as [k2|] eqn:Hm; [|done]. injection Hc as <-.
  exists dim, volume, basis, adr. done.
Qed.
End build_element_facts.

(** The constructor can only stop in [mju_error] on a vertex of a body other
    than the world whose plugin is not the instance under construction. *)
Lemma Membrane_ctor_Fatal `{Host} m d instance nu E thick damp k e k' :
  Membrane_ctor m d instance nu E thick damp k = Fatal e k' →
  ∃ bi bp, e = BodyWithoutPlugin bi instance ∧ bi ≠ 0 ∧
           rd (body_plugin m) bi = Some bp ∧ bp ≠ instance.
Proof.
  unfold Membrane_ctor. intros Hc.
  apply bind_lift_Fatal in Hc as ([nv0 i00] & _ & Hc).
  apply bind_lift_Fatal in Hc as ([f00 nv1] & _ & Hc).
  apply bind_lift_Fatal in Hc as (vertadr & _ & Hc).
  apply bind_lift_Fatal in Hc as (elemdataadr & _ & Hc).
  apply bind_lift_Fatal in Hc as (elemnum & _ & Hc).
  apply bind_Fatal in Hc as [Hloop|([] & k1 & _ & Hc)].
  - apply for_build_Fatal in Hloop as (j & k1 & _ & _ & Hf).
    apply build_element_Fatal in Hf as (_ & dim & i & bi & bp & _ & _ & _ & ? & ? & ? & ->).
    by exists bi, bp.
  - exfalso. apply bind_lift_Fatal in Hc as (ne0 & _ & Hc).
    apply bind_lift_Fatal in Hc as (el & _ & Hc).
    by apply bind_lift_Fatal in Hc as (fo & _ & Hc).
Qed.

(** C6 (amended): if, during the scan of the triangles, a vertex belongs to
    a body other than the world (body id nonzero) whose plugin instance is
    not the one under construction, the construction stops in [mju_error]
    at the first such vertex, with the stiffness storage as the elements
    before that triangle left it: nothing is written for the triangle
    itself. *)
Theorem ctor_aborts_on_foreign_vertex `{Host} m d instance nu E thick damp k
    nv0 i00 f00 nv1 vertadr elemdataadr elemnum dim t k_t i bi bp :
  count_bodies m instance = Some (nv0, i00) →
  find_flex m i00 (-1) nv0 = Some (f00, nv1) →
  rd (flex_vertadr m) f00 = Some vertadr →
  rd (flex_elemdataadr m) f00 = Some elemdataadr →
  rd (flex_elemnum m) f00 = Some elemnum →
  rd (flex_dim m) f00 = Some dim →
  0 ≤ t < elemnum →
  for_build (Z.to_nat t) 0
    (build_element m instance nu E thick f00 (flex_xvert0 m, 3 * vertadr)
       (flex_elem m, elemdataadr)) k = Done tt k_t →
  0 ≤ i < kNumVerts →
  (∀ j, 0 ≤ j < i →
     check_vertex m instance f00 (flex_elem m, elemdataadr + (dim + 1) * t) j k_t
     = Done tt k_t) →
  vertex_bodyid m f00 (flex_elem m, elemdataadr + (dim + 1) * t) i = Some bi →
  bi ≠ 0 →
  rd (body_plugin m) bi = Some bp → bp ≠ instance →
  Membrane_ctor m d instance nu E thick damp k = Fatal (BodyWithoutPlugin bi instance) k_t.
Proof.
  intros Hcount Hflex Hva Heda Hen Hdim Ht Hbefore Hi Hpass Hb Hn Hp Hne.
  unfold Membrane_ctor, bind at 1, lift at 1. rewrite Hcount.
  unfold bind at 1, lift at 1. rewrite Hflex.
  unfold bind at 1, lift at 1. rewrite Hva.
  unfold bind at 1, lift at 1. rewrite Heda.
  unfold bind at 1, lift at 1. rewrite Hen.
  unfold bind at 1.
  rewrite (for_build_stop _ (Z.to_nat elemnum) (Z.to_nat t) 0 k k_t
             (BodyWithoutPlugin bi instance) k_t); [done|lia|done|].
  replace (0 + Z.of_nat (Z.to_nat t)) with t by lia.
  by eapply build_element_stop.
Qed.

Lemma ctor_aborts_on_foreign_vertex_witness :
  vertex_bodyid foreign 0 (flex_elem foreign, 0 + (2 + 1) * 1) 2 = Some 5 ∧
  rd (body_plugin foreign) 5 = Some 1 ∧
  Membrane_ctor foreign rest 0 0.25 1000 0.5 0 (flex_stiffness foreign)
  = Fatal (BodyWithoutPlugin 5 0) stiffness_foreign.
Proof.
  split; [done|]. split; [done|].
  refine (ctor_aborts_on_foreign_vertex foreign rest 0 0.25 1000 0.5 0 (flex_stiffness foreign)
            4 (Some 1) 0 5 0 0 2 2 1 stiffness_foreign 2 5 1 _ _ _ _ _ _ _ _ _ _ _ _ _ _);
    try (by vm_compute); try lia.
  intros j Hj. assert (j = 0 ∨ j = 1) as [->| ->] by lia; by vm_compute.
Defined.

(** C6, as stated, fails for a vertex attached to the world body: body 0
    has no plugin instance (its entry of [body_plugin] is -1), yet the
    construction of [pinned] completes.  The statement refuted is the
    theorem above without its condition [bi ≠ 0]. *)
Lemma ctor_completes_with_world_vertex :
  ¬ (∀ `{Host} m d instance nu E thick damp k
       nv0 i00 f00 nv1 vertadr elemdataadr elemnum dim t k_t i bi bp,
       count_bodies m instance = Some (nv0, i00) →
       find_flex m i00 (-1) nv0 = Some (f00, nv1) →
       rd (flex_vertadr m) f00 = Some vertadr →
       rd (flex_elemdataadr m) f00 = Some elemdataadr →
       rd (flex_elemnum m) f00 = Some elemnum →
       rd (flex_dim m) f00 = Some dim →
       0 ≤ t < elemnum →
       for_build (Z.to_nat t) 0
         (build_element m instance nu E thick f00 (flex_xvert0 m, 3 * vertadr)
            (flex_elem m, elemdataadr)) k = Done tt k_t →
       0 ≤ i < kNumVerts →
       (∀ j, 0 ≤ j < i →
          check_vertex m instance f00 (flex_elem m, elemdataadr + (dim + 1) * t) j k_t
          = Done tt k_t) →
       vertex_bodyid m f00 (flex_elem m, elemdataadr + (dim + 1) * t) i = Some bi →
       rd (body_plugin m) bi = Some bp → bp ≠ instance →
       Membrane_ctor m d instance nu E thick damp k
       = Fatal (BodyWithoutPlugin bi instance) k_t).
Proof.
  intros Hclaim.
  assert (Hc : Membrane_ctor pinned rest 0 0.25 1000 0.5 0 (flex_stiffness pinned)
               = Fatal (BodyWithoutPlugin 0 0) (flex_stiffness pinned)).
  { apply (Hclaim SpecHost.host pinned rest 0 0.25%float 1000%float 0.5%float 0%float
             (flex_stiffness pinned) 2 (Some 1) 0 3 0 0 1 2 0 (flex_stiffness pinned)
             0 0 (-1)); try (by vm_compute); try lia. }
  by vm_compute in Hc.
Qed.

(** C10 (amended): a vertex attached to body 0 passes the membership test
    whatever the plugin of body 0 is; the constructor's fatal error is only
    raised for a body with a nonzero id whose plugin is not the instance
    under construction; so a world-attached vertex never stops the
    construction, and a triangle whose vertices are each attached to the
    world or to a body of the instance passes the scan. *)
Theorem world_vertex_exempt `{Host} m d instance nu E thick damp :
  (∀ f0 v i k, vertex_bodyid m f0 v i = Some 0 →
               check_vertex m instance f0 v i k = Done tt k)
  ∧ (∀ k e k', Membrane_ctor m d instance nu E thick damp k = Fatal e k' →
               ∃ bi bp, e = BodyWithoutPlugin bi instance ∧ bi ≠ 0 ∧
                        rd (body_plugin m) bi = Some bp ∧ bp ≠ instance)
  ∧ (∀ f0 v k,
       (∀ i, 0 ≤ i < kNumVerts →
          ∃ bi, vertex_bodyid m f0 v i = Some bi ∧
                (bi = 0 ∨ rd (body_plugin m) bi = Some instance)) →
       for_build (Z.to_nat kNumVerts) 0 (check_vertex m instance f0 v) k = Done tt k).
Proof.
  split; [|split].
  - intros f0 v i k. apply check_vertex_world.
  - intros k e k'. apply Membrane_ctor_Fatal.
  - intros f0 v k Hw. apply for_build_pure. intros j Hj.
    destruct (Hw j ltac:(lia)) as (bi & Hb & [->|Hp]).
    + by apply check_vertex_world.
    + by eapply check_vertex_own.
Qed.

Lemma world_vertex_exempt_witness :
  vertex_bodyid pinned 0 (flex_elem pinned, 0) 0 = Some 0 ∧
  rd (body_plugin pinned) 0 = Some (-1) ∧
  check_vertex pinned 0 0 (flex_elem pinned, 0) 0 (flex_stiffness pinned)
  = Done tt (flex_stiffness pinned).
Proof.
  split; [done|]. split; [done|].
  exact (proj1 (world_vertex_exempt pinned rest 0 0.25 1000 0.5 0) 0 (flex_elem pinned, 0) 0
           (flex_stiffness pinned) eq_refl).
Defined.

(** * The factory function *)

(** C3 (amended): [Create] returns no instance, and leaves the stiffness
    storage alone, whenever the attribute check fails for one of [face],
    [poisson], [young], [thickness].  When these four checks pass, the
    constructor runs with the parsed [poisson], [young] and [thickness] and
    with whatever [strtod] makes of the text of [damping]; its instance is
    returned unless it stops in [mju_error] or in undefined behaviour.
    Neither [damping] nor [edge] is checked. *)
Theorem Create_checks `{Host} m d instance k :
  (CheckAttr "face" m instance = false ∨ CheckAttr "poisson" m instance = false ∨
   CheckAttr "young" m instance = false ∨ CheckAttr "thickness" m instance = false →
   Create m d instance k = Done None k)
  ∧ (CheckAttr "face" m instance = true → CheckAttr "poisson" m instance = true →
     CheckAttr "young" m instance = true → CheckAttr "thickness" m instance = true →
     match Membrane_ctor m d instance
             (strtod (mj_getPluginConfig m instance "poisson"))
             (strtod (mj_getPluginConfig m instance "young"))
             (strtod (mj_getPluginConfig m instance "thickness"))
             (strtod (mj_getPluginConfig m instance "damping")) k with
     | Done self k' => Create m d instance k = Done (Some self) k'
     | Fatal e k' => Create m d instance k = Fatal e k'
     | Undefined => Create m d instance k = Undefined
     end).
Proof.
  unfold Create. split.
  - intros Hfail.
    destruct (CheckAttr "face" m instance), (CheckAttr "poisson" m instance),
      (CheckAttr "young" m instance), (CheckAttr "thickness" m instance);
      try reflexivity; destruct Hfail as [?|[?|[?|?]]]; discriminate.
  - intros -> -> -> ->. simpl. unfold bind.
    by destruct (Membrane_ctor _ _ _ _ _ _ _ _).
Qed.

Lemma Create_checks_witness :
  CheckAttr "damping" tri 0 = false ∧ CheckAttr "edge" tri 0 = false ∧
  match Membrane_ctor tri rest 0
          (strtod (mj_getPluginConfig tri 0 "poisson"))
          (strtod (mj_getPluginConfig tri 0 "young"))
          (strtod (mj_getPluginConfig tri 0 "thickness"))
          (strtod (mj_getPluginConfig tri 0 "damping")) (flex_stiffness tri) with
  | Done self k' => Create tri rest 0 (flex_stiffness tri) = Done (Some self) k'
  | Fatal e k' => Create tri rest 0 (flex_stiffness tri) = Fatal e k'
  | Undefined => Create tri rest 0 (flex_stiffness tri) = Undefined
  end.
Proof.
  split; [by vm_compute|]. split; [by vm_compute|].
  apply (proj2 (Create_checks tri rest 0 (flex_stiffness tri))); by vm_compute.
Defined.

(** C3, as stated, fails: [damping] (and [edge]) can be missing and an
    instance is still created, with damping 0. *)
Lemma Create_without_damping :
  ¬ (∀ `{Host} m d instance k name,
       name ∈ ["poisson"; "young"; "thickness"; "damping"; "face"; "edge"] →
       CheckAttr name m instance = false →
       Create m d instance k = Done None k).
Proof.
  intros Hclaim.
  specialize (Hclaim SpecHost.host tri rest 0 (flex_stiffness tri) "damping").
  assert (Hc : Create tri rest 0 (flex_stiffness tri) = Done None (flex_stiffness tri)).
  { apply Hclaim; [set_solver|by vm_compute]. }
  by vm_compute in Hc.
Qed.

(** * Material coefficients *)

Section material_facts.
Local Open Scope float_scope.

(** Both coefficients are a factor that does not depend on the thickness,
    times the thickness; doubling commutes with that last rounding as long
    as nothing leaves the normal range. *)
Lemma mu_double E nu volume thick :
  (F64.min_normal <=? abs thick) = true → is_finite (2 * thick) = true →
  (F64.min_normal <? abs (mu E nu volume thick)) = true →
  is_finite (2 * mu E nu volume thick) = true →
  mu E nu volume (2 * thick) = 2 * mu E nu volume thick.
Proof. unfold mu. apply fmul_double. Qed.

Lemma la_double E nu volume thick :
  (F64.min_normal <=? abs thick) = true → is_finite (2 * thick) = true →
  (F64.min_normal <? abs (la E nu volume thick)) = true →
  is_finite (2 * la E nu volume thick) = true →
  la E nu volume (2 * thick) = 2 * la E nu volume thick.
Proof. unfold la. apply fmul_double. Qed.

(** The entries of the stiffness tensor, for the assembly as the spec
    describes it ([SpecHost.MetricTensor]): the entry of an edge pair is
    mu tr(B1 B2) + la tr(B2) tr(B1), so it doubles with mu and la as long
    as no intermediate result leaves the normal range. *)
Lemma stiffness_entry_double mu0 la0 basis ed :
  let B1 := default [] (rd basis ed.1) in
  let B2 := default [] (rd basis ed.2) in
  F64.doubling_safe mu0 = true → F64.doubling_safe la0 = true →
  F64.doubling_safe (mu0 * SpecHost.trace_prod B1 B2) = true →
  F64.doubling_safe (la0 * SpecHost.trace B2) = true →
  F64.doubling_safe (la0 * SpecHost.trace B2 * SpecHost.trace B1) = true →
  F64.doubling_safe (mu0 * SpecHost.trace_prod B1 B2
                     + la0 * SpecHost.trace B2 * SpecHost.trace B1) = true →
  SpecHost.stiffness_entry (2 * mu0) (2 * la0) basis ed
  = 2 * SpecHost.stiffness_entry mu0 la0 basis ed.
Proof.
  intros B1 B2 Hmu Hla H1 H2 H3 H4. unfold SpecHost.stiffness_entry. fold B1 B2.
  rewrite (fmul_double_l mu0), (fmul_double_l la0),
    (fmul_double_l (la0 * SpecHost.trace B2)) by done.
  by apply fadd_double_safe.
Qed.

Lemma stiffness_entry_thickness E nu volume thick basis ed :
  let mu0 := mu E nu volume thick in
  let la0 := la E nu volume thick in
  let B1 := default [] (rd basis ed.1) in
  let B2 := default [] (rd basis ed.2) in
  (F64.min_normal <=? abs thick) = true → is_finite (2 * thick) = true →
  F64.doubling_safe mu0 = true → F64.doubling_safe la0 = true →
  F64.doubling_safe (mu0 * SpecHost.trace_prod B1 B2) = true →
  F64.doubling_safe (la0 * SpecHost.trace B2) = true →
  F64.doubling_safe (la0 * SpecHost.trace B2 * SpecHost.trace B1) = true →
  F64.doubling_safe (mu0 * SpecHost.trace_prod B1 B2
                     + la0 * SpecHost.trace B2 * SpecHost.trace B1) = true →
  SpecHost.stiffness_entry (mu E nu volume (2 * thick)) (la E nu volume (2 * thick)) basis ed
  = 2 * SpecHost.stiffness_entry mu0 la0 basis ed.
Proof.
  intros mu0 la0 B1 B2 Ht Ft Hmu Hla H1 H2 H3 H4.
  pose proof Hmu as [Nmu Fmu]%andb_true_iff. pose proof Hla as [Nla Fla]%andb_true_iff.
  rewrite mu_double, la_double by done.
  by apply stiffness_entry_double.
Qed.

(** On the triangle of [tri]: the entry of the pair (1, 1) by the lemma, and
    all six entries by evaluation (the first edge basis has trace zero, so
    the lemma does not cover its pairs). *)
Lemma stiffness_entry_thickness_tri :
  SpecHost.stiffness_entry (mu 1000 0.25 6 (2 * 0.5)) (la 1000 0.25 6 (2 * 0.5)) tri_basis (1, 1)%Z
  = 2 * SpecHost.stiffness_entry (mu 1000 0.25 6 0.5) (la 1000 0.25 6 0.5) tri_basis (1, 1)%Z.
Proof. apply stiffness_entry_thickness; by vm_compute. Qed.

Lemma stiffness_thickness_tri :
  SpecHost.stiffness_entry (mu 1000 0.25 6 (2 * 0.5)) (la 1000 0.25 6 (2 * 0.5)) tri_basis
    <$> SpecHost.edge_pairs
  = (λ x, 2 * x) <$>
    (SpecHost.stiffness_entry (mu 1000 0.25 6 0.5) (la 1000 0.25 6 0.5) tri_basis
       <$> SpecHost.edge_pairs).
Proof. by vm_compute. Qed.
End material_facts.

(** C2 (amended): for every element that the constructor completes, the
    tensor assembly receives
    mu = E / (2 (1 + nu)) * |area| / 4 * thickness and
    la = E nu / ((1 + nu) (1 - 2 nu)) * |area| / 4 * thickness,
    evaluated from left to right in double precision, with the area that
    [ComputeVolume] returns for the element.  Doubling the thickness exactly
    doubles mu (and la) provided the thickness is a normal number whose
    double is finite and mu (la) is above the smallest normal number with a
    finite double. *)
Theorem mu_la_thickness `{Host} m instance nu E thick f0 body_pos elem t k k' :
  (build_element m instance nu E thick f0 body_pos elem t k = Done tt k' →
   ∃ dim volume basis adr,
     rd (flex_dim m) f0 = Some dim ∧
     ComputeVolume body_pos (ptr_add elem ((dim + 1) * t)) = Some volume ∧
     rd (flex_elemadr m) f0 = Some adr ∧
     MetricTensor (k, 21 * adr) t
       (E / (2 * (1 + nu)) * mju_abs volume / 4 * thick)%float
       (E * nu / ((1 + nu) * (1 - 2 * nu)) * mju_abs volume / 4 * thick)%float
       basis = Some k')
  ∧ (∀ volume,
       (F64.min_normal <=? abs thick)%float = true → is_finite (2 * thick) = true →
       ((F64.min_normal <? abs (mu E nu volume thick))%float = true →
        is_finite (2 * mu E nu volume thick) = true →
        mu E nu volume (2 * thick) = (2 * mu E nu volume thick)%float)
       ∧ ((F64.min_normal <? abs (la E nu volume thick))%float = true →
          is_finite (2 * la E nu volume thick) = true →
          la E nu volume (2 * thick) = (2 * la E nu volume thick)%float)).
Proof.
  split.
  - intros (dim & volume & basis & adr & ? & ? & ? & ? & ?)%build_element_Done.
    exists dim, volume, basis, adr. done.
  - intros volume Ht Hf. split; intros; [by apply mu_double | by apply la_double].
Qed.

Lemma mu_la_thickness_witness :
  mu 1000 0.25 6 (2 * 0.5) = (2 * mu 1000 0.25 6 0.5)%float ∧
  la 1000 0.25 6 (2 * 0.5) = (2 * la 1000 0.25 6 0.5)%float.
Proof.
  pose proof (proj2 (mu_la_thickness tri 0 0.25 1000 0.5 0 (flex_xvert0 tri, 0) (flex_elem tri, 0)
                       0 (flex_stiffness tri) stiffness0) 6%float eq_refl eq_refl) as [Hmu Hla].
  split; [apply Hmu | apply Hla]; by vm_compute.
Defined.

(** C2, as stated, fails where doubling overflows: with thickness 2^1023
    the doubled thickness is infinite and so is mu, while twice the mu of
    the thickness itself is 2^1021. *)
Lemma mu_double_overflow :
  ¬ (∀ E nu volume thick : mjtNum,
       mu E nu volume (2 * thick) = (2 * mu E nu volume thick)%float ∧
       la E nu volume (2 * thick) = (2 * la E nu volume thick)%float).
Proof.
  intros Hclaim. destruct (Hclaim 1 0 1 0x1p1023)%float as [Hmu _].
  apply (f_equal is_infinity) in Hmu. by vm_compute in Hmu.
Qed.

(** * The rest state *)

(** At rest every elongation is zero, for every host. *)
Lemma rest_elongation_zero `{Host} m d instance self self' d' edgeadr prev1 idx len :
  Compute m d instance self = Some (self', d') →
  rd (flex_edgeadr m) (f0 self) = Some edgeadr →
  init_prev self (flexedge_length0 m, edgeadr) = Some prev1 →
  0 ≤ idx < ne self →
  rd (flexedge_length d) (edgeadr + idx) = Some len →
  rd (flexedge_length0 m) (edgeadr + idx) = Some len →
  rd prev1 idx = Some len →
  is_finite (len * len) = true →
  is_finite (damping self / opt_timestep m) = true →
  rd (elongation self') idx = Some 0%float.
Proof.
  intros Hc Ha Hp Hidx Hd Hr Hv Hl Hk.
  rewrite (Compute_edge _ _ _ _ _ _ _ _ _ _ _ _ Hc Ha Hp Hidx Hd Hr Hv).
  f_equal. by apply edge_elongation_rest.
Qed.

Section contraction_facts.
Import SpecHost.
Local Open Scope float_scope.

Lemma rd_replicate {A} (n : nat) (x y : A) i : rd (replicate n x) i = Some y → y = x.
Proof.
  unfold rd. destruct (i <? 0)%Z; [done|]. by intros [-> _]%lookup_replicate.
Qed.

(** A summand with a zero elongation and finite coefficients leaves a zero
    force buffer as it is. *)
Lemma accumulate_zero elongation tm n f :
  (∀ i e, rd elongation i = Some e → e = 0) →
  is_finite (t_grad tm) = true → is_finite (t_stiff tm) = true →
  accumulate elongation tm (replicate n 0) = Some f → f = replicate n 0.
Proof.
  intros Hz Hg Hk. unfold accumulate.
  destruct (rd elongation (t_edge tm)) as [e|] eqn:He; [|done]. simpl.
  apply Hz in He as ->.
  destruct (rd (replicate n 0) (t_dof tm)) as [f0'|] eqn:Hf; [|done]. simpl.
  apply rd_replicate in Hf as ->.
  assert (Hv : 0 - 0 * t_grad tm * t_stiff tm = 0).
  { apply fsub_zero_r, fmul_zero_l; [|done]. by apply fmul_zero_l. }
  rewrite Hv. intros [_ ->]%wr_Some. apply insert_replicate.
Qed.

Lemma accumulate_all_zero elongation tms n f :
  (∀ i e, rd elongation i = Some e → e = 0) →
  forallb (λ tm, is_finite (t_grad tm) && is_finite (t_stiff tm)) tms = true →
  accumulate_all elongation tms (replicate n 0) = Some f → f = replicate n 0.
Proof.
  intros Hz. revert f. induction tms as [|tm tms IH]; intros f; cbn [accumulate_all forallb].
  - by intros _ [= <-].
  - intros [[Hg Hk]%andb_true_iff Hrest]%andb_true_iff.
    destruct (accumulate elongation tm (replicate n 0)) as [f1|] eqn:Ha; [|done]. simpl.
    apply accumulate_zero in Ha as ->; auto.
Qed.
End contraction_facts.

(** C8 (amended): in a completed step in which, for every tracked edge, the
    deformed, the reference and the previous length are the same number
    with a finite square, and damping / timestep is finite, every
    elongation is 0; and then the force buffer that the contraction of the
    specification leaves is 0 in every entry, provided its stiffness and
    gradient coefficients are finite. *)
Theorem rest_state_zero m d instance self self' d' edgeadr prev1 vertadr :
  Compute (H := SpecHost.host) m d instance self = Some (self', d') →
  rd (flex_edgeadr m) (f0 self) = Some edgeadr →
  init_prev self (flexedge_length0 m, edgeadr) = Some prev1 →
  rd (flex_vertadr m) (f0 self) = Some vertadr →
  (∀ idx, 0 ≤ idx < ne self →
     ∃ len, rd (flexedge_length d) (edgeadr + idx) = Some len ∧
            rd (flexedge_length0 m) (edgeadr + idx) = Some len ∧
            rd prev1 idx = Some len ∧ is_finite (len * len) = true) →
  is_finite (damping self / opt_timestep m) = true →
  (∀ idx, 0 ≤ idx < ne self → rd (elongation self') idx = Some 0%float)
  ∧ (Z.of_nat (length (elongation self)) = ne self →
     SpecHost.terms_finite m (f0 self) (flexvert_xpos d, 3 * vertadr) = true →
     force self' = replicate (length (force self)) 0%float).
Proof.
  intros Hc Ha Hp Hva Hrest Hk.
  assert (Hzero : ∀ idx, 0 ≤ idx < ne self → rd (elongation self') idx = Some 0%float).
  { intros idx Hidx. destruct (Hrest idx Hidx) as (len & Hd & Hr & Hv & Hl).
    by eapply rest_elongation_zero. }
  split; [done|]. intros Hlen Hfin.
  apply Compute_inv in Hc
    as (adr & p1 & va & _ & _ & Hloop & Hva' & Hforce & _).
  rewrite Hva in Hva'. injection Hva' as <-.
  unfold for_loop in Hloop. apply elongation_loop_spec in Hloop as (Hlen' & _ & _).
  cbn [ComputeForce SpecHost.host] in Hforce. unfold SpecHost.ComputeForce in Hforce.
  unfold SpecHost.terms_finite in Hfin.
  destruct (SpecHost.contraction_terms m (f0 self) (flexvert_xpos d, 3 * vertadr))
    as [tms|]; [|done].
  simpl in Hforce, Hfin.
  eapply accumulate_all_zero; [|exact Hfin|exact Hforce].
  intros i e He. pose proof (rd_Some _ _ _ He) as Hi.
  rewrite Hzero in He by lia. by injection He.
Qed.

Lemma rest_state_zero_witness :
  let self := with_damping membrane0 0.25 in
  is_finite (damping self / opt_timestep tri_built) = true ∧
  force (default self (fst <$> Compute tri_built rest 0 self)) = replicate 9 0%float.
Proof.
  intros self. split; [done|].
  destruct (Compute tri_built rest 0 self) as [[self' d']|] eqn:Hc; [|by vm_compute in Hc].
  refine (proj2 (rest_state_zero tri_built rest 0 self self' d' 0 [5; 3; 4]%float 0
                   Hc _ _ _ _ _) _ _); try by vm_compute.
  intros idx Hidx. change (ne self) with 3 in Hidx.
  assert (idx = 0 ∨ idx = 1 ∨ idx = 2) as [->|[->| ->]] by lia;
    [exists 5%float|exists 3%float|exists 4%float]; by vm_compute.
Defined.

(** C8, as stated, fails: with a zero time step damping / timestep is
    infinite and every elongation at rest is NaN. *)
Lemma rest_state_zero_timestep :
  ¬ (∀ `{Host} m d instance self self' d' edgeadr,
       Compute m d instance self = Some (self', d') →
       rd (flex_edgeadr m) (f0 self) = Some edgeadr →
       (∀ idx, 0 ≤ idx < ne self →
          ∃ len, rd (flexedge_length d) (edgeadr + idx) = Some len ∧
                 rd (flexedge_length0 m) (edgeadr + idx) = Some len ∧
                 rd (prev self) idx = Some len) →
       ∀ idx, 0 ≤ idx < ne self → rd (elongation self') idx = Some 0%float).
Proof.
  intros Hclaim.
  pose (m := with_timestep tri 0%float).
  pose (self := with_damping membrane1 1%float).
  assert (∃ self' d', Compute m rest 0 self = Some (self', d') ∧
                      rd (elongation self') 0 = Some nan) as (self' & d' & Hc & He).
  { vm_compute. eexists _, _. split; reflexivity. }
  specialize (Hclaim SpecHost.host m rest 0 self self' d' 0 Hc eq_refl).
  rewrite Hclaim in He.
  - apply (f_equal (from_option is_nan true)) in He. by vm_compute in He.
  - intros idx Hidx. change (ne self) with 3 in Hidx.
    assert (idx = 0 ∨ idx = 1 ∨ idx = 2) as [->|[->| ->]] by lia;
      [exists 5%float|exists 3%float|exists 4%float]; by vm_compute.
  - done.
Qed.

(** C10, as stated, fails in its last clause: a triangle that contains a
    world-attached vertex still stops the construction when another of its
    vertices is on a body of another plugin. *)
Lemma world_vertex_with_foreign_vertex :
  ¬ (∀ `{Host} m d instance nu E thick damp k f00 elemdataadr dim t i,
       rd (flex_elemdataadr m) f00 = Some elemdataadr →
       rd (flex_dim m) f00 = Some dim →
       0 ≤ i < kNumVerts →
       vertex_bodyid m f00 (flex_elem m, elemdataadr + (dim + 1) * t) i = Some 0 →
       ∀ e k', Membrane_ctor m d instance nu E thick damp k ≠ Fatal e k').
Proof.
  intros Hclaim.
  apply (Hclaim SpecHost.host mixed rest 0 0.25%float 1000%float 0.5%float 0%float
           (flex_stiffness mixed) 0 0 2 0 0 eq_refl eq_refl ltac:(done) eq_refl
           (BodyWithoutPlugin 5 0) (flex_stiffness mixed)).
  by vm_compute.
Qed.

(** * The constructor's search for its bodies and its flex *)

(** The loop over the bodies, from any state of its two counters. *)
Lemma count_loop (m : mjModel) (instance : Z) (n : nat) : ∀ i nv i0 nv' i0',
  0 ≤ nv →
  for_range n i
    (λ i '(nv, i0),
       bp ← rd (body_plugin m) i;
       Some (if bp =? instance
             then (nv + 1, if nv =? 0 then Some i else i0)
             else (nv, i0)))
    (nv, i0) = Some (nv', i0') →
  let L := filter (λ b, rd (body_plugin m) b = Some instance) (seqZ i (Z.of_nat n)) in
  nv' = nv + Z.of_nat (length L) ∧
  i0' = if nv =? 0 then match head L with Some b => Some b | None => i0 end else i0.
Proof.
  induction n as [|n IH]; intros i nv i0 nv' i0' Hnv; cbn [for_range].
  - intros [= <- <-]. simpl. split; [lia|]. by destruct (Z.eqb nv 0).
  - rewrite Nat2Z.inj_succ, seqZ_cons by lia.
    replace (Z.pred (Z.succ (Z.of_nat n))) with (Z.of_nat n) by lia.
    replace (Z.succ i) with (i + 1) by lia.
    destruct (rd (body_plugin m) i) as [bp|] eqn:Hbp; simpl; [|done].
    rewrite filter_cons.
    destruct (Z.eqb_spec bp instance) as [->|Hne].
    + rewrite decide_True by done.
      intros (-> & ->)%IH; [|lia]. simpl. split; [lia|].
      destruct (Z.eqb_spec (nv + 1) 0); [lia|]. by destruct (Z.eqb nv 0).
    + rewrite decide_False by congruence.
      intros (-> & ->)%IH; done.
Qed.

Lemma count_bodies_spec m instance nv i0 :
  count_bodies m instance = Some (nv, i0) →
  nv = Z.of_nat (length (plugin_bodies m instance)) ∧ i0 = head (plugin_bodies m instance).
Proof.
  unfold count_bodies, for_loop, plugin_bodies. intros Hc.
  apply count_loop in Hc as [-> ->]; [|done].
  destruct (Z.le_gt_cases 0 (nbody m - 1)).
  - rewrite Z2Nat.id by lia. split; [lia|]. simpl. by destruct (head _).
  - replace (Z.to_nat (nbody m - 1)) with 0%nat by lia.
    rewrite !seqZ_nil by lia. done.
Qed.

(** The first element of an increasing range that has a property is the
    least one. *)
Lemma head_filter_seqZ (P : Z → Prop) `{∀ x, Decision (P x)} (n : nat) : ∀ i b,
  head (filter P (seqZ i (Z.of_nat n))) = Some b →
  i ≤ b < i + Z.of_nat n ∧ P b ∧ ∀ b', i ≤ b' < b → ¬ P b'.
Proof.
  induction n as [|n IH]; intros i b; [done|].
  rewrite Nat2Z.inj_succ, seqZ_cons by lia.
  replace (Z.pred (Z.succ (Z.of_nat n))) with (Z.of_nat n) by lia.
  rewrite filter_cons. destruct (decide (P i)) as [HP|HP].
  - intros [= <-]. split; [lia|]. split; [done|]. intros; lia.
  - intros (Hr & Hb & Hleast)%IH. split; [lia|]. split; [done|].
    intros b' Hb'. destruct (decide (b' = i)) as [->|]; [done|]. apply Hleast. lia.
Qed.

(** X1: the constructor's count of plugin bodies.  The world body is not
    looked at; [nv] is the number of bodies of the instance; [i0] is unset
    exactly when there is none, and is otherwise the body of the instance
    with the least index. *)
Theorem count_bodies_first m instance nv i0 :
  count_bodies m instance = Some (nv, i0) →
  nv = Z.of_nat (length (plugin_bodies m instance)) ∧
  (i0 = None ↔ nv = 0) ∧
  ∀ b, i0 = Some b →
       1 ≤ b < nbody m ∧ rd (body_plugin m) b = Some instance ∧
       ∀ b', 1 ≤ b' < b → rd (body_plugin m) b' ≠ Some instance.
Proof.
  intros [-> ->]%count_bodies_spec. split; [done|]. split.
  - rewrite head_None. split; [by intros ->|].
    intros Hl. apply nil_length_inv. lia.
  - intros b Hb. unfold plugin_bodies in Hb.
    destruct (Z.le_gt_cases 0 (nbody m - 1)) as [Hn|Hn].
    + rewrite <- (Z2Nat.id (nbody m - 1)) in Hb by done.
      apply head_filter_seqZ in Hb as (Hr & HP & Hleast). split; [lia|]. done.
    + by rewrite seqZ_nil in Hb by lia.
Qed.

Lemma count_bodies_first_witness :
  count_bodies foreign 0 = Some (4, Some 1) ∧
  rd (body_plugin foreign) 1 = Some 0.
Proof.
  split; [by vm_compute|].
  destruct (count_bodies_first foreign 0 4 (Some 1) eq_refl) as (_ & _ & Hfirst).
  by destruct (Hfirst 1 eq_refl) as (_ & Hb & _).
Defined.

Section find_flex_facts.
Context (m : mjModel) (i0 : option Z).

(** The loop over the vertices of flex [i]; [vnr] is the read of
    [m->flex_vertnum[i]] in its body. *)
Lemma find_flex_inner i (vnr : option Z) (n : nat) : ∀ j0 s s',
  for_range n j0
    (λ j '(f0, nv),
       adr ← rd (flex_vertadr m) i;
       b ← rd (flex_vertbodyid m) (adr + j);
       first ← i0;
       if b =? first
       then (nv' ← vnr; Some (i, nv'))
       else Some (f0, nv))
    s = Some s' →
  (s' = s ∧
   ∀ j adr first, j0 ≤ j < j0 + Z.of_nat n → rd (flex_vertadr m) i = Some adr → i0 = Some first →
                  rd (flex_vertbodyid m) (adr + j) ≠ Some first)
  ∨ (∃ first vn adr j, i0 = Some first ∧ vnr = Some vn ∧ s' = (i, vn) ∧
                       rd (flex_vertadr m) i = Some adr ∧ j0 ≤ j < j0 + Z.of_nat n ∧
                       rd (flex_vertbodyid m) (adr + j) = Some first).
Proof.
  induction n as [|n IH]; intros j0 s s'; cbn [for_range].
  - intros [= <-]. left. split; [done|]. intros; lia.
  - destruct s as [f nv].
    destruct (rd (flex_vertadr m) i) as [adr|] eqn:Ha; simpl; [|done].
    destruct (rd (flex_vertbodyid m) (adr + j0)) as [b|] eqn:Hb; simpl; [|done].
    destruct i0 as [first|] eqn:Hi; simpl; [|done].
    destruct (Z.eqb_spec b first) as [->|Hne].
    + destruct vnr as [vn|] eqn:Hn; simpl; [|done].
      intros [[-> _]|(first' & vn' & adr' & j & ? & ? & -> & ? & ? & ?)]%IH.
      * right. exists first, vn, adr, j0. repeat split; try done; lia.
      * right. exists first', vn', adr', j. repeat split; try done; lia.
    + intros [[-> Hno]|(first' & vn' & adr' & j & ? & ? & -> & ? & ? & ?)]%IH.
      * left. split; [done|]. intros j adr' first' Hj [= <-] [= <-].
        destruct (decide (j = j0)) as [->|]; [congruence|]. apply Hno; [lia|done..].
      * right. exists first', vn', adr', j. repeat split; try done; lia.
Qed.

(** The loop over the flexes. *)
Lemma find_flex_outer (n : nat) : ∀ i s s',
  0 ≤ i →
  for_range n i
    (λ i s,
       n ← rd (flex_vertnum m) i;
       for_loop 0 n
         (λ j '(f0, nv),
            adr ← rd (flex_vertadr m) i;
            b ← rd (flex_vertbodyid m) (adr + j);
            first ← i0;
            if b =? first
            then (nv' ← rd (flex_vertnum m) i; Some (i, nv'))
            else Some (f0, nv))
         s)
    s = Some s' →
  (s' = s ∧ ∀ i' b, i ≤ i' < i + Z.of_nat n → i0 = Some b → ¬ flex_has_body m i' b)
  ∨ (∃ b, i0 = Some b ∧ i ≤ s'.1 < i + Z.of_nat n ∧ flex_has_body m s'.1 b ∧
          rd (flex_vertnum m) s'.1 = Some s'.2 ∧
          ∀ i', s'.1 < i' < i + Z.of_nat n → ¬ flex_has_body m i' b).
Proof.
  induction n as [|n IH]; intros i s s' Hi; cbn [for_range].
  - intros [= <-]. left. split; [done|]. intros; lia.
  - destruct (rd (flex_vertnum m) i) as [vn|] eqn:Hn; simpl; [|done].
    unfold for_loop.
    destruct (for_range (Z.to_nat (vn - 0)) 0 _ s) as [s1|] eqn:Hin; simpl; [|done].
    apply (find_flex_inner i (Some vn)) in Hin.
    intros Hrest. apply IH in Hrest; [|lia].
    destruct Hrest as [[-> Hrest]|(b & Hb & Hr & Hhas & Hvn & Hlast)].
    + destruct Hin as [[-> Hno]|(first & vn' & adr & j & Hf & Hvn' & -> & Ha & Hj & Hb)].
      * left. split; [done|]. intros i' b Hi' Hb.
        destruct (decide (i' = i)) as [->|]; [|apply Hrest; [lia|done]].
        intros (n' & adr & j & Hn' & Ha & Hj & Hbj).
        rewrite Hn in Hn'. injection Hn' as <-.
        eapply (Hno j adr b); [lia|done..].
      * injection Hvn' as <-.
        right. exists first. simpl. split; [done|]. split; [lia|].
        split; [|split; [done|]].
        -- exists vn, adr, j. repeat split; try done; lia.
        -- intros i' Hi'. apply Hrest; [lia|done].
    + right. exists b. split; [done|]. split; [lia|]. split; [done|]. split; [done|].
      intros i' Hi'. apply Hlast. lia.
Qed.
End find_flex_facts.

Lemma find_flex_spec m i0 f nv f' nv' :
  find_flex m i0 f nv = Some (f', nv') →
  (f' = f ∧ nv' = nv ∧ ∀ i b, 0 ≤ i < nflex m → i0 = Some b → ¬ flex_has_body m i b)
  ∨ (∃ b, i0 = Some b ∧ 0 ≤ f' < nflex m ∧ flex_has_body m f' b ∧
          rd (flex_vertnum m) f' = Some nv' ∧
          ∀ i, f' < i < nflex m → ¬ flex_has_body m i b).
Proof.
  unfold find_flex, for_loop. intros Hc.
  apply find_flex_outer in Hc as [[[= -> ->] Hno]|(b & Hb & Hr & Hhas & Hvn & Hlast)]; [| |done].
  - left. split; [done|]. split; [done|]. intros i b Hi. apply Hno. lia.
  - right. exists b. simpl in *. split; [done|]. split; [lia|]. split; [done|]. split; [done|].
    intros i Hi. apply Hlast. lia.
Qed.

(** X2: the constructor's search for the flex, which starts from [f0 = -1]:
    when no flex has a vertex on the first body of the instance, [f0] stays
    -1 and [nv] stays the number of bodies; otherwise the search ends on the
    last flex with such a vertex, and [nv] is the number of vertices of that
    flex. *)
Theorem find_flex_last m i0 nv f' nv' :
  find_flex m i0 (-1) nv = Some (f', nv') →
  (f' = -1 ∧ nv' = nv ∧ ∀ i b, 0 ≤ i < nflex m → i0 = Some b → ¬ flex_has_body m i b)
  ∨ (∃ b, i0 = Some b ∧ 0 ≤ f' < nflex m ∧ flex_has_body m f' b ∧
          rd (flex_vertnum m) f' = Some nv' ∧
          ∀ i, f' < i < nflex m → ¬ flex_has_body m i b).
Proof. apply find_flex_spec. Qed.

Lemma find_flex_last_witness :
  find_flex foreign (Some 1) (-1) 4 = Some (0, 5) ∧
  rd (flex_vertnum foreign) 0 = Some 5.
Proof.
  split; [by vm_compute|].
  destruct (find_flex_last foreign (Some 1) 4 0 5 eq_refl)
    as [(Hf & _)|(b & _ & _ & _ & Hvn & _)]; [done|exact Hvn].
Defined.

(** * What a completed construction returns *)

(** X3: a construction that completes has found a body of the instance and
    a flex with a vertex on the first such body.  The instance refers to
    the last such flex; [nv] is the number of vertices of that flex (not the
    number of bodies counted first) and [ne] its number of edges; the
    both are not negative; the snapshot is empty and the elongation and
    force vectors hold [ne] and [3 nv] zeros. *)
Theorem ctor_instance `{Host} m d instance nu E thick damp k self k' :
  Membrane_ctor m d instance nu E thick damp k = Done self k' →
  i0 self = head (plugin_bodies m instance) ∧
  (∃ b, i0 self = Some b ∧ 0 ≤ f0 self < nflex m ∧ flex_has_body m (f0 self) b ∧
        ∀ i, f0 self < i < nflex m → ¬ flex_has_body m i b) ∧
  rd (flex_vertnum m) (f0 self) = Some (nv self) ∧
  rd (flex_edgenum m) (f0 self) = Some (ne self) ∧
  0 ≤ ne self ∧ 0 ≤ nv self ∧
  prev self = [] ∧
  elongation self = replicate (Z.to_nat (ne self)) 0%float ∧
  force self = replicate (Z.to_nat (3 * nv self)) 0%float ∧
  damping self = damp ∧ thickness self = thick.
Proof.
  unfold Membrane_ctor. intros Hc.
  apply bind_lift_Done in Hc as ([nv0 i00] & Hcount & Hc).
  apply bind_lift_Done in Hc as ([f00 nv1] & Hfind & Hc).
  apply bind_lift_Done in Hc as (vertadr & Hva & Hc).
  apply bind_lift_Done in Hc as (elemdataadr & _ & Hc).
  apply bind_lift_Done in Hc as (elemnum & _ & Hc).
  apply bind_Done in Hc as ([] & k1 & _ & Hc).
  apply bind_lift_Done in Hc as (ne0 & Hne & Hc).
  apply bind_lift_Done in Hc as (el & [Hn ->]%assign_Some & Hc).
  apply bind_lift_Done in Hc as (fo & [Hv ->]%assign_Some & Hc).
  injection Hc as <- <-. simpl.
  apply count_bodies_spec in Hcount as [_ Hi0].
  apply find_flex_spec in Hfind as [(-> & _)|(b & Hb & Hr & Hhas & Hvn & Hlast)].
  { by apply rd_Some in Hva as [? _]. }
  split; [done|]. split; [by exists b|]. repeat split; try done; lia.
Qed.

Lemma ctor_instance_witness :
  Membrane_ctor tri rest 0 0.25 1000 0.5 0 (flex_stiffness tri) = Done membrane0 stiffness0 ∧
  i0 membrane0 = head (plugin_bodies tri 0) ∧
  rd (flex_vertnum tri) (f0 membrane0) = Some (nv membrane0).
Proof.
  assert (Hc : Membrane_ctor tri rest 0 0.25 1000 0.5 0 (flex_stiffness tri)
               = Done membrane0 stiffness0) by (by vm_compute).
  split; [exact Hc|].
  destruct (ctor_instance tri rest 0 0.25 1000 0.5 0 (flex_stiffness tri) membrane0 stiffness0
              Hc) as (Hi & _ & Hv & _).
  by split.
Defined.

(** X4: without a body of the instance the constructor has no defined
    behaviour: [f0] stays -1 and indexes [m->flex_vertadr], or the unset
    [i0] is compared with the body of a vertex.  It neither returns an
    instance nor reports an error. *)
Theorem ctor_needs_body `{Host} m d instance nu E thick damp k :
  plugin_bodies m instance = [] →
  Membrane_ctor m d instance nu E thick damp k = Undefined.
Proof.
  intros Hnone. unfold Membrane_ctor, bind at 1, lift at 1.
  destruct (count_bodies m instance) as [[nv0 i00]|] eqn:Hcount; [|done].
  apply count_bodies_spec in Hcount as [_ ->]. rewrite Hnone. simpl.
  unfold bind at 1, lift at 1.
  destruct (find_flex m None (-1) nv0) as [[f00 nv1]|] eqn:Hfind; [|done].
  apply find_flex_spec in Hfind as [(-> & _)|(b & Hb & _)]; [done|done].
Qed.

Lemma ctor_needs_body_witness :
  plugin_bodies tri 7 = [] ∧
  Membrane_ctor tri rest 7 0.25 1000 0.5 0 (flex_stiffness tri) = Undefined.
Proof.
  split; [by vm_compute|]. apply ctor_needs_body. by vm_compute.
Defined.

(** * Bounds of an evaluation step *)

(** X5: for an instance in a reachable state, an evaluation step stays
    within all arrays when the two edge-length arrays cover the edges of
    the flex and the two functions of the host return. *)
Theorem Compute_in_bounds `{Host} m d instance self edgeadr vertadr :
  reachable self →
  rd (flex_edgeadr m) (f0 self) = Some edgeadr →
  rd (flex_vertadr m) (f0 self) = Some vertadr →
  0 ≤ edgeadr →
  edgeadr + ne self ≤ Z.of_nat (length (flexedge_length d)) →
  edgeadr + ne self ≤ Z.of_nat (length (flexedge_length0 m)) →
  (∀ elong, Z.of_nat (length elong) = ne self →
     ∃ frc, ComputeForce (force self) elong m (f0 self) (flexvert_xpos d, 3 * vertadr)
            = Some frc ∧
            is_Some (AddFlexForce (qfrc_passive d) frc m d
                       (flexvert_xpos d, 3 * vertadr) (f0 self))) →
  is_Some (Compute m d instance self).
Proof.
  intros (Hne & He & Hp)%reachable_sizes Ha Hva H0 Hd Hr Hhost.
  unfold Compute. rewrite Ha. simpl.
  assert (∃ prev1, init_prev self (flexedge_length0 m, edgeadr) = Some prev1 ∧
                   Z.of_nat (length prev1) = ne self) as (prev1 & -> & Hl1).
  { destruct (decide (prev self = [])) as [Hem|Hn].
    - unfold init_prev, assign. rewrite Hem. destruct (Z.ltb_spec (ne self) 0); [lia|]. simpl.
      destruct (memcpy_defined (replicate (Z.to_nat (ne self)) 0%float)
                  (flexedge_length0 m, edgeadr) (ne self)) as [p Hm];
        simpl; rewrite ?length_replicate; try lia.
      exists p. split; [done|]. apply memcpy_length in Hm. rewrite Hm, length_replicate. lia.
    - exists (prev self). split; [by apply init_prev_nonempty|]. by destruct Hp. }
  simpl. unfold for_loop.
  destruct (elongation_loop_defined (flexedge_length d, edgeadr) (flexedge_length0 m, edgeadr)
              prev1 (damping self / opt_timestep m)%float (Z.to_nat (ne self - 0)) 0
              (elongation self)) as [elong Hloop].
  { intros idx Hidx. unfold ptr_rd. simpl. repeat split; try (apply rd_is_Some; lia); lia. }
  rewrite Hloop. simpl. rewrite Hva. simpl.
  apply elongation_loop_spec in Hloop as (Hlen & _).
  destruct (Hhost elong ltac:(lia)) as (frc & Hf & [qfrc Hq]).
  rewrite Hf. simpl. rewrite Hq. simpl.
  assert (is_Some (update_prev (damping self / opt_timestep m)%float prev1
                     (flexedge_length d, edgeadr) (ne self))) as [prev2 ->].
  { unfold update_prev. destruct (fpos _); [|by eexists].
    apply memcpy_defined; simpl; lia. }
  by eexists.
Qed.

Lemma Compute_in_bounds_witness :
  reachable membrane1 ∧ is_Some (Compute tri_built stretched 0 membrane1).
Proof.
  split; [exact reachable_membrane1|].
  apply (Compute_in_bounds tri_built stretched 0 membrane1 0 0 reachable_membrane1);
    try (by vm_compute).
  intros [|a [|b [|c [|? ?]]]] Hlen; cbn in Hlen; try lia.
  eexists. split; [vm_compute; reflexivity|]. vm_compute. by eexists.
Defined.

(** X6: conversely, a step that completes for a flex with edges has read
    every edge inside both edge-length arrays and written every elongation
    inside the elongation vector: with an array that is too short the step
    has no defined behaviour. *)
Theorem Compute_needs_bounds `{Host} m d instance self self' d' edgeadr :
  Compute m d instance self = Some (self', d') →
  rd (flex_edgeadr m) (f0 self) = Some edgeadr →
  0 < ne self →
  0 ≤ edgeadr ∧
  edgeadr + ne self ≤ Z.of_nat (length (flexedge_length d)) ∧
  edgeadr + ne self ≤ Z.of_nat (length (flexedge_length0 m)) ∧
  ne self ≤ Z.of_nat (length (elongation self)).
Proof.
  intros Hc Ha Hne.
  apply Compute_inv in Hc as (a' & prev1 & va & Ha' & _ & Hloop & _).
  rewrite Ha in Ha'. injection Ha' as <-.
  unfold for_loop in Hloop. apply elongation_loop_spec in Hloop as (Hlen & Hin & _).
  destruct (Hin 0 ltac:(lia)) as (dl0 & r0 & _ & Hd0 & _).
  destruct (Hin (ne self - 1) ltac:(lia)) as (dl & r & p & Hd & Hr & _ & He).
  unfold ptr_rd in *. simpl in *.
  apply rd_Some in Hd0, Hd, Hr, He. lia.
Qed.

Lemma Compute_needs_bounds_witness :
  Compute tri stretched 0 membrane0 ≠ None ∧
  0 + ne membrane0 ≤ Z.of_nat (length (flexedge_length stretched)).
Proof.
  split; [by vm_compute|].
  destruct (Compute tri stretched 0 membrane0) as [[self' d']|] eqn:Hc; [|by vm_compute in Hc].
  by destruct (Compute_needs_bounds tri stretched 0 membrane0 self' d' 0 Hc eq_refl eq_refl)
    as (_ & Hb & _).
Defined.

(** * What a step does with the old elongations and the old lengths *)

Lemma rd_ext {A} (a b : list A) : (∀ i, rd a i = rd b i) → a = b.
Proof.
  intros Hab. apply list_eq. intros i. specialize (Hab (Z.of_nat i)).
  unfold rd in Hab. destruct (Z.ltb_spec (Z.of_nat i) 0); [lia|].
  by rewrite Nat2Z.id in Hab.
Qed.

Lemma rd_None_ge {A} (a : list A) i : Z.of_nat (length a) ≤ i → rd a i = None.
Proof.
  intros Hi. unfold rd. destruct (Z.ltb_spec i 0); [done|].
  apply lookup_ge_None. lia.
Qed.

Lemma rd_None_neg {A} (a : list A) i : i < 0 → rd a i = None.
Proof. intros Hi. unfold rd. by destruct (Z.ltb_spec i 0); [|lia]. Qed.

(** The loop over the edges gives the same vector from any two vectors of
    as many entries as the loop writes. *)
Lemma elongation_loop_fresh (deformed ref : ptr mjtNum) prev kD (n : nat) e1 e2 :
  length e1 = n → length e2 = n →
  for_range n 0 (elongation_step deformed ref prev kD) e1
  = for_range n 0 (elongation_step deformed ref prev kD) e2.
Proof.
  intros H1 H2.
  destruct (for_range n 0 _ e1) as [r1|] eqn:E1, (for_range n 0 _ e2) as [r2|] eqn:E2.
  - f_equal. apply elongation_loop_spec in E1 as (L1 & I1 & O1), E2 as (L2 & I2 & O2).
    apply rd_ext. intros idx.
    destruct (decide (0 ≤ idx < 0 + Z.of_nat n)) as [Hin|Hout].
    + destruct (I1 idx Hin) as (dl & r & p & Hd & Hr & Hp & ->).
      destruct (I2 idx Hin) as (dl' & r' & p' & Hd' & Hr' & Hp' & ->). congruence.
    + destruct (Z.lt_ge_cases idx 0).
      * by rewrite !rd_None_neg.
      * rewrite !rd_None_ge; [done|lia..].
  - exfalso. apply elongation_loop_spec in E1 as (L1 & I1 & O1).
    destruct (elongation_loop_defined deformed ref prev kD n 0 e2) as [r2 Hr2]; [|congruence].
    intros idx Hin. destruct (I1 idx Hin) as (dl & r & p & Hd & Hr & Hp & _).
    rewrite Hd, Hr, Hp. repeat split; try done; lia.
  - exfalso. apply elongation_loop_spec in E2 as (L1 & I1 & O1).
    destruct (elongation_loop_defined deformed ref prev kD n 0 e1) as [r1 Hr1]; [|congruence].
    intros idx Hin. destruct (I1 idx Hin) as (dl & r & p & Hd & Hr & Hp & _).
    rewrite Hd, Hr, Hp. repeat split; try done; lia.
  - done.
Qed.

(** X7: every step recomputes the whole elongation vector: what the vector
    held before the step has no influence on the step, neither on the new
    state nor on the forces. *)
Theorem Compute_overwrites_elongation `{Host} m d instance self e :
  Z.of_nat (length (elongation self)) = ne self →
  Z.of_nat (length e) = ne self →
  Compute m d instance (with_elongation self e) = Compute m d instance self.
Proof.
  intros H1 H2. unfold Compute, for_loop. cbn [with_elongation f0 i0 nv ne damping thickness
    prev elongation force].
  destruct (rd (flex_edgeadr m) (f0 self)) as [edgeadr|]; [|done]. simpl.
  replace (init_prev (with_elongation self e) (flexedge_length0 m, edgeadr))
    with (init_prev self (flexedge_length0 m, edgeadr)) by done.
  destruct (init_prev self _) as [prev1|]; [|done]. simpl.
  rewrite (elongation_loop_fresh _ _ _ _ (Z.to_nat (ne self - 0)) e (elongation self))
    by lia.
  done.
Qed.

Lemma Compute_overwrites_elongation_witness :
  Compute tri stretched 0 (with_elongation membrane0 [1; 2; 3]%float)
  = Compute tri stretched 0 membrane0.
Proof. by apply (Compute_overwrites_elongation tri stretched 0 membrane0 [1; 2; 3]%float). Defined.

Section steady_facts.
Local Open Scope float_scope.

(** With an unchanged length the damping term vanishes. *)
Lemma edge_elongation_steady (len ref kD : mjtNum) :
  is_finite (len * len) = true → is_finite kD = true →
  edge_elongation len ref len kD = len * len - ref * ref.
Proof.
  intros Hl Hk. unfold edge_elongation. rewrite (fsub_diag _ Hl).
  apply fadd_zero_r; [by apply fmul_zero_l | apply fsub_squares_not_negzero].
Qed.
End steady_facts.

(** X8: two steps in a row.  After a step with a positive damping factor,
    the next step measures the change of every edge against the length the
    edge had in that step; an edge that kept its length gets the undamped
    elongation, when its square and the damping factor are finite. *)
Theorem damped_steps `{Host} m d1 d2 instance self self1 d1' self2 d2' edgeadr idx
    (len1 len2 ref : mjtNum) :
  Compute m d1 instance self = Some (self1, d1') →
  fpos (damping self / opt_timestep m) = true →
  Compute m d2 instance self1 = Some (self2, d2') →
  rd (flex_edgeadr m) (f0 self) = Some edgeadr →
  0 ≤ idx < ne self →
  rd (flexedge_length d1) (edgeadr + idx) = Some len1 →
  rd (flexedge_length d2) (edgeadr + idx) = Some len2 →
  rd (flexedge_length0 m) (edgeadr + idx) = Some ref →
  rd (elongation self2) idx
  = Some (len2 * len2 - ref * ref + (len2 * len2 - len1 * len1)
                                    * (damping self / opt_timestep m))%float
  ∧ (len2 = len1 → is_finite (len1 * len1) = true →
     is_finite (damping self / opt_timestep m) = true →
     rd (elongation self2) idx = Some (len1 * len1 - ref * ref)%float).
Proof.
  intros Hc1 Hk Hc2 Ha Hidx Hl1 Hl2 Hr.
  pose proof Hc1 as (a' & prev1 & va & Ha' & _ & _ & _ & _ & _ & Hu & Hf0 & _ & _ & Hne & Hdamp & _)
    %Compute_inv.
  rewrite Ha in Ha'. injection Ha' as <-.
  apply update_prev_Some in Hu as (_ & Hcopy & _).
  destruct (Hcopy Hk) as [_ Hrd]. specialize (Hrd idx Hidx).
  unfold ptr_rd in Hrd. simpl in Hrd. rewrite Hl1 in Hrd.
  assert (Hp : init_prev self1 (flexedge_length0 m, edgeadr) = Some (prev self1)).
  { apply init_prev_nonempty. intros Hnil. rewrite Hnil in Hrd.
    apply rd_Some in Hrd. simpl in Hrd. lia. }
  rewrite <- Hf0 in Ha. rewrite <- Hne in Hidx.
  pose proof (Compute_edge _ _ _ _ _ _ _ _ _ _ _ _ Hc2 Ha Hp Hidx Hl2 Hr Hrd) as He.
  rewrite Hdamp in He. split; [exact He|].
  intros -> Hfin Hkfin. rewrite He. f_equal. by apply edge_elongation_steady.
Qed.

Lemma damped_steps_witness :
  fpos (damping (with_damping membrane0 1) / opt_timestep tri) = true ∧
  ∃ self1 d1' self2 d2',
    Compute tri stretched 0 (with_damping membrane0 1) = Some (self1, d1') ∧
    Compute tri rest 0 self1 = Some (self2, d2') ∧
    rd (elongation self2) 0 = Some (5 * 5 - 5 * 5 + (5 * 5 - 6 * 6) * (1 / 0.5))%float.
Proof.
  split; [by vm_compute|].
  destruct (Compute tri stretched 0 (with_damping membrane0 1)) as [[self1 d1']|] eqn:Hc1;
    [|by vm_compute in Hc1].
  destruct (Compute tri rest 0 self1) as [[self2 d2']|] eqn:Hc2.
  - exists self1, d1', self2, d2'. split; [done|]. split; [done|].
    refine (proj1 (damped_steps tri stretched rest 0 (with_damping membrane0 1) self1 d1' self2 d2'
                     0 0 6%float 5%float 5%float Hc1 _ Hc2 _ _ _ _ _)); by vm_compute.
  - exfalso. revert Hc2. vm_compute in Hc1. injection Hc1 as <- _. by vm_compute.
Defined.

(** X15: a step that does not update the snapshot can be repeated: on the
    same model and data the next step computes the same elongations and
    leaves the same snapshot. *)
Theorem undamped_step_repeatable `{Host} m d instance self self1 d1 self2 d2 :
  Compute m d instance self = Some (self1, d1) →
  fpos (damping self / opt_timestep m) = false →
  Z.of_nat (length (elongation self)) = ne self →
  Compute m d1 instance self1 = Some (self2, d2) →
  elongation self2 = elongation self1 ∧ prev self2 = prev self1.
Proof.
  intros Hc1 Hk Hlen Hc2.
  apply Compute_inv in Hc1
    as (adr & prev1 & va & Ha & Hi & Hl & _ & _ & _ & Hu & Hf0 & _ & _ & Hne & Hdamp & _ & Hd1 & _).
  apply Compute_inv in Hc2
    as (adr' & prev1' & va' & Ha' & Hi' & Hl' & _ & _ & _ & Hu' & _).
  rewrite Hf0, Ha in Ha'. injection Ha' as <-.
  rewrite Hne, Hdamp, Hd1 in *.
  apply update_prev_Some in Hu as (_ & _ & Hsame). specialize (Hsame Hk).
  apply update_prev_Some in Hu' as (_ & _ & Hsame'). specialize (Hsame' Hk).
  assert (prev1' = prev1) as ->.
  { destruct (decide (prev self1 = [])) as [Hnil|Hnn].
    - destruct (decide (prev self = [])) as [Hnil0|Hnn0].
      + unfold init_prev in Hi, Hi'. rewrite Hnil0 in Hi. rewrite Hnil, Hne in Hi'. congruence.
      + rewrite init_prev_nonempty in Hi by done. congruence.
    - rewrite init_prev_nonempty in Hi' by done. congruence. }
  split; [|congruence].
  unfold for_loop in Hl, Hl'.
  pose proof Hl as (Hlen1 & _)%elongation_loop_spec.
  rewrite (elongation_loop_fresh _ _ _ _ _ (elongation self1) (elongation self)) in Hl' by lia.
  congruence.
Qed.

Lemma undamped_step_repeatable_witness :
  fpos (damping membrane0 / opt_timestep tri) = false ∧
  ∃ self1 d1 self2 d2,
    Compute tri stretched 0 membrane0 = Some (self1, d1) ∧
    Compute tri d1 0 self1 = Some (self2, d2) ∧
    elongation self2 = elongation self1.
Proof.
  split; [by vm_compute|].
  destruct (Compute tri stretched 0 membrane0) as [[self1 d1]|] eqn:Hc1;
    [|by vm_compute in Hc1].
  destruct (Compute tri d1 0 self1) as [[self2 d2]|] eqn:Hc2.
  - exists self1, d1, self2, d2. split; [done|]. split; [done|].
    refine (proj1 (undamped_step_repeatable tri stretched 0 membrane0 self1 d1 self2 d2
                     Hc1 _ _ Hc2)); by vm_compute.
  - exfalso. revert Hc2. vm_compute in Hc1. injection Hc1 as <- <-. by vm_compute.
Defined.

(** * Divisions that the code does not guard *)

Section unguarded_divisions.
Local Open Scope float_scope.

Lemma fdiv_by_zero a z : is_zero z = true → is_finite (a / z) = false.
Proof.
  rewrite is_zero_spec, is_finite_spec, div_spec.
  destruct (Prim2SF a) as [sa|sa| |sa ma ea], (Prim2SF z) as [sb|sb| |sb mb eb];
    cbn; congruence.
Qed.

Lemma fmul_nonfinite_l a b : is_finite a = false → is_finite (a * b) = false.
Proof.
  rewrite !is_finite_spec, mul_spec.
  destruct (Prim2SF a) as [sa|sa| |sa ma ea], (Prim2SF b) as [sb|sb| |sb mb eb];
    cbn; congruence.
Qed.

Lemma fdiv_nonfinite_l a b : is_finite a = false → is_finite (a / b) = false.
Proof.
  rewrite !is_finite_spec, div_spec.
  destruct (Prim2SF a) as [sa|sa| |sa ma ea], (Prim2SF b) as [sb|sb| |sb mb eb];
    cbn; congruence.
Qed.
End unguarded_divisions.

(** X9: a triangle whose area is zero, or so small that [8*area*area]
    underflows to zero, gets a basis without a single finite entry: the
    division in [ComputeBasis] is not guarded. *)
Theorem ComputeBasis_degenerate x v faceL faceR area basis :
  ComputeBasis x v faceL faceR area = Some basis →
  is_zero (8 * area * area) = true →
  ∀ i, 0 ≤ i < 9 → ∃ b, rd basis i = Some b ∧ is_finite b = false.
Proof.
  intros (basisL & basisR & ->)%ComputeBasis_Some Hz i Hi.
  assert (∃ r c, 0 ≤ r < 3 ∧ 0 ≤ c < 3 ∧ i = 3 * r + c) as (r & c & Hr & Hc & ->).
  { exists (i / 3), (i mod 3). pose proof (Z.div_mod i 3 ltac:(lia)).
    pose proof (Z.mod_pos_bound i 3 ltac:(lia)).
    assert (0 ≤ i / 3 < 3) by (split; [apply Z.div_pos|apply Z.div_lt_upper_bound]; lia).
    lia. }
  exists (basis_entry basisL basisR area r c). split; [by apply basis_fill_rd|].
  unfold basis_entry. by apply fdiv_by_zero.
Qed.

Lemma ComputeBasis_degenerate_witness :
  let basis := default [] (ComputeBasis (flex_xvert0 tri, 0) (flex_elem tri, 0) (2, 0) (0, 1)
                             0x1p-600) in
  is_zero (8 * 0x1p-600 * 0x1p-600) = true ∧
  ∃ b, rd basis 4 = Some b ∧ is_finite b = false.
Proof.
  split; [by vm_compute|].
  destruct (ComputeBasis (flex_xvert0 tri, 0) (flex_elem tri, 0) (2, 0) (0, 1) 0x1p-600)
    as [basis|] eqn:Hb; [|by vm_compute in Hb].
  exact (ComputeBasis_degenerate _ _ _ _ _ basis Hb eq_refl 4 ltac:(lia)).
Defined.

(** X10: the poles of the material formulas are not guarded either.  With
    a Poisson ratio of 0.5 the dilation coefficient, and with a Poisson
    ratio of -1 both coefficients, are infinite or NaN whatever the Young
    modulus, the area and the thickness are. *)
Theorem poisson_poles E volume thick :
  is_finite (la E 0.5 volume thick) = false ∧
  is_finite (mu E (-1) volume thick) = false ∧
  is_finite (la E (-1) volume thick) = false.
Proof.
  unfold la, mu. repeat split;
    do 2 (apply fmul_nonfinite_l || apply fdiv_nonfinite_l);
    apply fmul_nonfinite_l, fdiv_by_zero; by vm_compute.
Qed.

(** * The callbacks of the registration *)

Lemma rd_wr {A} (a : list A) i x a' j :
  wr a i x = Some a' → rd a' j = if decide (j = i) then Some x else rd a j.
Proof.
  intros Hw. destruct (decide (j = i)) as [->|Hne].
  - by eapply rd_wr_eq.
  - by eapply rd_wr_ne.
Qed.

Lemma plugin_init_Done `{Host} m d pd instance k r pd' k' :
  plugin_init m d pd instance k = Done (r, pd') k' →
  (r = -1 ∧ Create m d instance k = Done None k ∧ pd' = pd ∧ k' = k)
  ∨ (r = 0 ∧ ∃ self, Create m d instance k = Done (Some self) k' ∧
                     ∀ j, rd pd' j = if decide (j = instance) then Some (Some self)
                                     else rd pd j).
Proof.
  unfold plugin_init. intros (o & k1 & Hcreate & Hrest)%bind_Done.
  destruct o as [self|].
  - apply bind_lift_Done in Hrest as (pd1 & Hw & [= <- <- <-]).
    right. split; [done|]. exists self. split; [done|]. intros j. by eapply rd_wr.
  - injection Hrest as <- <- <-. left. split; [done|].
    assert (k1 = k) as ->; [|done].
    unfold Create in Hcreate. destruct (_ && _).
    + by apply bind_Done in Hcreate as (self & k2 & _ & [=]).
    + by injection Hcreate.
Qed.

(** X11: how [init] can end.  It returns -1, and leaves the instance table
    and the stiffness storage alone, exactly when [Create] gives no
    instance; it returns 0 exactly when [Create] gives one, which is then
    the entry of the instance, the other entries being kept.  A vertex on a
    body of another plugin does not make it return -1: it stops in the
    constructor's fatal error, after the four attribute checks passed. *)
Theorem plugin_init_result `{Host} m d pd instance k :
  (∀ r pd' k',
     plugin_init m d pd instance k = Done (r, pd') k' →
     (r = -1 ∧ Create m d instance k = Done None k ∧ pd' = pd ∧ k' = k)
     ∨ (r = 0 ∧ ∃ self, Create m d instance k = Done (Some self) k' ∧
                        ∀ j, rd pd' j = if decide (j = instance) then Some (Some self)
                                        else rd pd j))
  ∧ (∀ e k',
       plugin_init m d pd instance k = Fatal e k' →
       CheckAttr "face" m instance && CheckAttr "poisson" m instance &&
       CheckAttr "young" m instance && CheckAttr "thickness" m instance = true ∧
       ∃ bi bp, e = BodyWithoutPlugin bi instance ∧ bi ≠ 0 ∧
                rd (body_plugin m) bi = Some bp ∧ bp ≠ instance).
Proof.
  split; [intros r pd' k'; apply plugin_init_Done|].
  intros e k'. unfold plugin_init.
  intros [Hcreate|(o & k1 & _ & Hrest)]%bind_Fatal.
  - unfold Create in Hcreate. destruct (_ && _); [|done]. split; [done|].
    apply bind_Fatal in Hcreate as [Hctor|(self & k2 & _ & [=])].
    by eapply Membrane_ctor_Fatal.
  - destruct o as [self|]; [|done].
    by apply bind_lift_Fatal in Hrest as (pd1 & _ & [=]).
Qed.

Lemma plugin_init_result_witness :
  plugin_init tri rest [None] 0 (flex_stiffness tri) = Done (0, [Some membrane0]) stiffness0 ∧
  ∃ self, Create tri rest 0 (flex_stiffness tri) = Done (Some self) stiffness0.
Proof.
  assert (Hi : plugin_init tri rest [None] 0 (flex_stiffness tri)
               = Done (0, [Some membrane0]) stiffness0) by (by vm_compute).
  split; [exact Hi|].
  destruct (proj1 (plugin_init_result tri rest [None] 0 (flex_stiffness tri)) 0
              [Some membrane0] stiffness0 Hi) as [(? & _)|(_ & self & Hc & _)];
    [done|by exists self].
Defined.

(** X12: after [destroy] the entry of the instance is 0 and the other
    entries are kept; a second [destroy] changes nothing, and [compute] on
    the destroyed instance has no defined behaviour. *)
Theorem plugin_destroy_result `{Host} pd instance pd' :
  plugin_destroy pd instance = Some pd' →
  (∀ j, rd pd' j = if decide (j = instance) then Some None else rd pd j) ∧
  plugin_destroy pd' instance = Some pd' ∧
  ∀ m d type, plugin_compute m d pd' instance type = None.
Proof.
  unfold plugin_destroy. destruct (rd pd instance) as [p|] eqn:Hp; [|done]. simpl.
  intros Hw. pose proof (rd_wr_eq _ _ _ _ Hw) as Hnew.
  split; [intros j; by eapply rd_wr|]. split.
  - rewrite Hnew. simpl. apply wr_Some in Hw as [Hi ->].
    unfold wr. rewrite length_insert.
    destruct (Z.leb_spec 0 instance), (Z.ltb_spec instance (Z.of_nat (length pd))); try lia.
    simpl. by rewrite list_insert_insert_eq.
  - intros m d type. unfold plugin_compute. by rewrite Hnew.
Qed.

Lemma plugin_destroy_result_witness :
  plugin_destroy [Some membrane0] 0 = Some [None] ∧
  plugin_compute tri rest [None] 0 0 = None.
Proof.
  split; [done|].
  exact (proj2 (proj2 (plugin_destroy_result [Some membrane0] 0 [None] eq_refl)) tri rest 0).
Defined.

Lemma plugin_compute_step `{Host} m d pd instance type self :
  rd pd instance = Some (Some self) →
  plugin_compute m d pd instance type
  = '(self', d') ← Compute m d instance self;
    Some (<[Z.to_nat instance := Some self']> pd, d').
Proof.
  intros Hp. unfold plugin_compute. rewrite Hp. simpl.
  destruct (Compute m d instance self) as [[self' d']|]; [|done]. simpl.
  apply rd_Some in Hp. unfold wr.
  by destruct (Z.leb_spec 0 instance), (Z.ltb_spec instance (Z.of_nat (length pd))); try lia.
Qed.

(** X13: [init] and then [compute].  When [init] returns 0, a [compute]
    on the table it leaves is an evaluation step of the instance that
    [Create] returned, and the state after the step takes its place in the
    table. *)
Theorem init_then_compute `{Host} m d pd instance k pd' k' :
  plugin_init m d pd instance k = Done (0, pd') k' →
  ∃ self, Create m d instance k = Done (Some self) k' ∧
          ∀ m2 d2 type,
            plugin_compute m2 d2 pd' instance type
            = '(self', d') ← Compute m2 d2 instance self;
              Some (<[Z.to_nat instance := Some self']> pd', d').
Proof.
  intros [(? & _)|(_ & self & Hc & Hrd)]%plugin_init_Done; [done|].
  exists self. split; [done|]. intros m2 d2 type. apply plugin_compute_step.
  rewrite Hrd. by rewrite decide_True.
Qed.

Lemma init_then_compute_witness :
  plugin_init tri rest [None] 0 (flex_stiffness tri) = Done (0, [Some membrane0]) stiffness0 ∧
  plugin_compute tri rest [Some membrane0] 0 0 ≠ None.
Proof.
  assert (Hi : plugin_init tri rest [None] 0 (flex_stiffness tri)
               = Done (0, [Some membrane0]) stiffness0) by (by vm_compute).
  split; [exact Hi|].
  destruct (init_then_compute tri rest [None] 0 (flex_stiffness tri) [Some membrane0]
              stiffness0 Hi) as (self & Hc & Hstep).
  rewrite Hstep. vm_compute in Hc. injection Hc as <-. by vm_compute.
Defined.

(** X14: [init] and then [destroy].  The table is as it was before [init],
    when the entry of the instance was 0 then. *)
Theorem init_then_destroy `{Host} m d pd instance k pd' k' :
  plugin_init m d pd instance k = Done (0, pd') k' →
  rd pd instance = Some None →
  plugin_destroy pd' instance = Some pd.
Proof.
  intros [(? & _)|(_ & self & Hc & Hrd)]%plugin_init_Done Hp; [done|].
  unfold plugin_destroy. rewrite Hrd, decide_True by done. simpl.
  assert (Hlen : length pd' = length pd).
  { apply Nat.le_antisymm.
    - destruct (Nat.le_gt_cases (length pd') (length pd)) as [|Hgt]; [done|exfalso].
      pose proof (rd_is_Some pd' (Z.of_nat (length pd)) ltac:(lia)) as [x Hx].
      rewrite Hrd in Hx. destruct (decide _) as [Heq|_].
      + apply rd_Some in Hp. lia.
      + apply rd_Some in Hx. lia.
    - destruct (Nat.le_gt_cases (length pd) (length pd')) as [|Hgt]; [done|exfalso].
      pose proof (rd_is_Some pd (Z.of_nat (length pd')) ltac:(lia)) as [x Hx].
      specialize (Hrd (Z.of_nat (length pd'))). rewrite Hx in Hrd.
      destruct (decide _); apply rd_Some in Hrd; lia. }
  pose proof (rd_Some _ _ _ Hp) as Hi.
  destruct (wr pd' instance None) as [pd2|] eqn:Hw.
  - f_equal. apply rd_ext. intros j. rewrite (rd_wr _ _ _ _ j Hw).
    destruct (decide (j = instance)) as [->|Hne]; [done|].
    rewrite Hrd. by rewrite decide_False.
  - exfalso. revert Hw. unfold wr.
    by destruct (Z.leb_spec 0 instance), (Z.ltb_spec instance (Z.of_nat (length pd'))); try lia.
Qed.

Lemma init_then_destroy_witness :
  plugin_init tri rest [None] 0 (flex_stiffness tri) = Done (0, [Some membrane0]) stiffness0 ∧
  plugin_destroy [Some membrane0] 0 = Some [None].
Proof.
  assert (Hi : plugin_init tri rest [None] 0 (flex_stiffness tri)
               = Done (0, [Some membrane0]) stiffness0) by (by vm_compute).
  split; [exact Hi|].
  exact (init_then_destroy tri rest [None] 0 (flex_stiffness tri) [Some membrane0] stiffness0
           Hi eq_refl).
Defined.
